(** * Sky Sprint: the simulation loop of [src/app/page.tsx]

    A shallow embedding of the game closure of the [Game] component: the
    mutable variables of the second [useEffect] (player, obstacles,
    spawnTimer, speed, lastTime), the three refs (statusRef, scoreRef,
    bestRef) and the one [localStorage] key, threaded explicitly through
    every function as a record.

    Numbers.  JavaScript numbers are IEEE doubles.  Coordinates, speeds and
    times are modelled by exact rationals [Q] and the score, which only
    counts up from 0, by [Z].  The best score can come from the store, so
    it is a [JsNum.t]: an integer or an infinity, and a stored string is
    read to the nearest double as the host does.

    Host.  [Math.random()] is an input: the three draws of a spawn are the
    fields of [Rand].  The frame scheduler is the environment: a frame
    callback is an event of the transition system.  [render()] and the
    React display copies ([setStatus], [setScore], [setBest]) only mirror
    the state and are left out. *)

From Stdlib Require Import ZArith QArith Qminmax Lqa Lia Bool.
From Stdlib Require Import String Ascii DecimalString.
From stdpp Require Import base option list gmap strings.

Local Open Scope Z_scope.
Local Open Scope Q_scope.

(** ** Comparisons of numbers, as booleans *)

Definition Qleb (a b : Q) : bool := Qle_bool a b.
Definition Qltb (a b : Q) : bool := negb (Qle_bool b a).

(** ** Constants (page.tsx, lines 14-19 and 80) *)

Definition WORLD_WIDTH : Q := 360.
Definition WORLD_HEIGHT : Q := 640.
Definition GROUND_HEIGHT : Q := 72.
Definition PLAYER_SIZE : Q := 42.
Definition GRAVITY : Q := 1100.
Definition JUMP_VELOCITY : Q := -420.

Definition groundY : Q := WORLD_HEIGHT - GROUND_HEIGHT.

(** The resting height of the player, [groundY - PLAYER_SIZE]. *)
Definition restY : Q := groundY - PLAYER_SIZE.

(** ** Strings and numbers of the host *)

(** A JavaScript string is a sequence of 16-bit code units. *)
Abbreviation jsString := (list N).

Definition codeUnits (s : string) : jsString :=
  map N_of_ascii (list_ascii_of_string s).

(** The integral values of the Number type, NaN apart: the result of
    [parseInt] when there is one, and what [bestRef] holds. *)
Module JsNum.
Inductive t : Set := NegInf | Fin (z : Z) | PosInf.

Definition leb (a b : t) : bool :=
  match a, b with
  | NegInf, _ => true
  | _, PosInf => true
  | Fin x, Fin y => (x <=? y)%Z
  | _, _ => false
  end.

Definition ltb (a b : t) : bool := negb (leb b a).

Definition le (a b : t) : Prop := leb a b = true.
Definition lt (a b : t) : Prop := ltb a b = true.

Definition max (a b : t) : t := if leb a b then b else a.
End JsNum.

Declare Scope num_scope.
Delimit Scope num_scope with num.
Infix "<=" := JsNum.le : num_scope.
Infix "<" := JsNum.lt : num_scope.

Definition BEST_KEY : jsString := codeUnits "sky-sprint-best".

(** ** Data model *)

Inductive GameStatus : Set := ready | running | over.

Definition GameStatus_eqb (a b : GameStatus) : bool :=
  match a, b with
  | ready, ready | running, running | over, over => true
  | _, _ => false
  end.

Module Obstacle.
Record t : Type := mk { x : Q; width : Q; height : Q; passed : bool }.
End Obstacle.

Module Player.
Record t : Type := mk { x : Q; y : Q; vy : Q; onGround : bool }.
End Player.

(** The three draws of [Math.random()] made when an obstacle is spawned:
    width, height and timer jitter, in that order. *)
Record Rand : Type := mkRand { rWidth : Q; rHeight : Q; rJitter : Q }.

Definition unit_interval (r : Q) : Prop := 0 <= r /\ r < 1.

Definition validRand (r : Rand) : Prop :=
  unit_interval (rWidth r) /\ unit_interval (rHeight r) /\ unit_interval (rJitter r).

Record Game : Type := mkGame {
  statusRef : GameStatus;
  scoreRef : Z;
  bestRef : JsNum.t;
  localStorage : gmap jsString jsString;
  lastTime : Q;
  obstacles : list Obstacle.t;
  spawnTimer : Q;
  speed : Q;
  player : Player.t
}.

(** Field updates of the closure variables. *)

Definition set_statusRef (v : GameStatus) (g : Game) : Game :=
  mkGame v (scoreRef g) (bestRef g) (localStorage g) (lastTime g)
         (obstacles g) (spawnTimer g) (speed g) (player g).

Definition set_scoreRef (v : Z) (g : Game) : Game :=
  mkGame (statusRef g) v (bestRef g) (localStorage g) (lastTime g)
         (obstacles g) (spawnTimer g) (speed g) (player g).

Definition set_bestRef (v : JsNum.t) (g : Game) : Game :=
  mkGame (statusRef g) (scoreRef g) v (localStorage g) (lastTime g)
         (obstacles g) (spawnTimer g) (speed g) (player g).

Definition set_localStorage (v : gmap jsString jsString) (g : Game) : Game :=
  mkGame (statusRef g) (scoreRef g) (bestRef g) v (lastTime g)
         (obstacles g) (spawnTimer g) (speed g) (player g).

Definition set_lastTime (v : Q) (g : Game) : Game :=
  mkGame (statusRef g) (scoreRef g) (bestRef g) (localStorage g) v
         (obstacles g) (spawnTimer g) (speed g) (player g).

Definition set_obstacles (v : list Obstacle.t) (g : Game) : Game :=
  mkGame (statusRef g) (scoreRef g) (bestRef g) (localStorage g) (lastTime g)
         v (spawnTimer g) (speed g) (player g).

Definition set_spawnTimer (v : Q) (g : Game) : Game :=
  mkGame (statusRef g) (scoreRef g) (bestRef g) (localStorage g) (lastTime g)
         (obstacles g) v (speed g) (player g).

Definition set_speed (v : Q) (g : Game) : Game :=
  mkGame (statusRef g) (scoreRef g) (bestRef g) (localStorage g) (lastTime g)
         (obstacles g) (spawnTimer g) v (player g).

Definition set_player (v : Player.t) (g : Game) : Game :=
  mkGame (statusRef g) (scoreRef g) (bestRef g) (localStorage g) (lastTime g)
         (obstacles g) (spawnTimer g) (speed g) v.

(** ** The host's string/number conversions

    [Number.parseInt(s, 10)] after ECMA-262 (sec. parseInt and TrimString):
    leading white space and line terminators are skipped, one sign is
    read, then the longest run of decimal digits; no digit at all gives
    NaN, here [None]; otherwise the result is the Number value of the
    signed integer the digits write. *)

(** WhiteSpace and LineTerminator of ECMA-262: TAB, LF, VT, FF, CR, the
    space, the no-break space, U+1680, U+2000 to U+200A, U+2028, U+2029,
    U+202F, U+205F, U+3000 and U+FEFF. *)
Definition isWhiteSpace (c : N) : bool :=
  ((9 <=? c) && (c <=? 13) || (c =? 32) || (c =? 160) || (c =? 5760)
   || (8192 <=? c) && (c <=? 8202) || (c =? 8232) || (c =? 8233)
   || (c =? 8239) || (c =? 8287) || (c =? 12288) || (c =? 65279))%N.

Fixpoint trimStart (s : jsString) : jsString :=
  match s with
  | c :: r => if isWhiteSpace c then trimStart r else s
  | [] => []
  end.

Definition digitValue (c : N) : option Z :=
  if ((48 <=? c) && (c <=? 57))%N then Some (Z.of_N c - 48)%Z else None.

Fixpoint digitsPrefix (acc : Z) (s : jsString) : Z :=
  match s with
  | c :: r =>
      match digitValue c with
      | Some d => digitsPrefix (10 * acc + d)%Z r
      | None => acc
      end
  | [] => acc
  end.

(** The 53-bit significand of a positive integer [a] of [53 + k] bits,
    [k > 0]: [a / 2^k] rounded to the nearest integer, a tie going to the
    even one. *)
Definition significand (a k : Z) : Z :=
  let q := Z.shiftr a k in
  let rest := (a - Z.shiftl q k)%Z in
  let half := Z.shiftl 1 (k - 1) in
  if ((half <? rest) || (rest =? half) && Z.odd q)%Z then (q + 1)%Z else q.

(** The Number value of an integer: the nearest double, a tie going to
    the even significand; from 2^1024 on, in magnitude, an infinity.
    Integers of at most 53 bits are doubles. *)
Definition toNumber (m : Z) : JsNum.t :=
  let a := Z.abs m in
  let k := (Z.log2 a + 1 - 53)%Z in
  if (k <=? 0)%Z then JsNum.Fin m
  else
    let v := Z.shiftl (significand a k) k in
    if (Z.shiftl 1 1024 <=? v)%Z
    then (if (0 <? m)%Z then JsNum.PosInf else JsNum.NegInf)
    else JsNum.Fin (Z.sgn m * v).

Definition parseInt (s : jsString) : option JsNum.t :=
  let s1 := trimStart s in
  let '(sign, s2) :=
    match s1 with
    | c :: r =>
        if (c =? 45)%N then ((-1)%Z, r)
        else if (c =? 43)%N then (1%Z, r)
        else (1%Z, s1)
    | [] => (1%Z, s1)
    end in
  match s2 with
  | c :: _ =>
      match digitValue c with
      | Some _ => Some (toNumber (sign * digitsPrefix 0 s2))
      | None => None
      end
  | [] => None
  end.

(** The template literal [`${value}`] of an integral number below 10^21
    in magnitude: its decimal digits, after a minus sign if negative. *)
Definition numberToString (value : Z) : jsString :=
  codeUnits (NilZero.string_of_int (Z.to_int value)).

(** ** Initialisation of the best score (page.tsx, lines 58-65)

    [getItem] gives [null] for a missing key, which [??] replaces by the
    string 0. *)

Definition readSaved (storage : gmap jsString jsString) : option JsNum.t :=
  parseInt (default (codeUnits "0") (storage !! BEST_KEY)).

Definition loadBest (g : Game) : Game :=
  match readSaved (localStorage g) with
  | Some saved =>
      if JsNum.ltb (JsNum.Fin 0) saved then set_bestRef saved g else g
  | None => g
  end.

(** ** The game closure (page.tsx, lines 95-328) *)

Definition setStatusSafe (next : GameStatus) (g : Game) : Game :=
  set_statusRef next g.

Definition setScoreSafe (value : Z) (g : Game) : Game :=
  set_scoreRef value g.

(** Lines 105-112. *)
Definition updateBest (value : Z) (g : Game) : Game :=
  if JsNum.leb (JsNum.Fin value) (bestRef g) then g
  else
    set_localStorage (<[BEST_KEY := numberToString value]> (localStorage g))
                     (set_bestRef (JsNum.Fin value) g).

(** Lines 230-239. *)
Definition endGame (g : Game) : Game :=
  if negb (GameStatus_eqb (statusRef g) running) then g
  else updateBest (scoreRef (setStatusSafe over g)) (setStatusSafe over g).

(** Lines 242-251: integration of the player and the ground clamp. *)
Definition stepPlayer (delta : Q) (p : Player.t) : Player.t :=
  let vy1 := Player.vy p + GRAVITY * delta in
  let y1 := Player.y p + vy1 * delta in
  if Qleb (groundY - PLAYER_SIZE) y1
  then Player.mk (Player.x p) (groundY - PLAYER_SIZE) 0 true
  else Player.mk (Player.x p) y1 vy1 false.

(** Lines 255-262: the obstacle pushed on a spawn. *)
Definition newObstacle (rnd : Rand) : Obstacle.t :=
  let width := 44 + rWidth rnd * 32 in
  let height := 60 + rHeight rnd * 90 in
  Obstacle.mk (WORLD_WIDTH + width) width height false.

(** Line 263. *)
Definition difficultyBoost (score : Z) : Q :=
  Qmin ((12 # 10) + inject_Z score * (15 # 1000)) (17 # 10).

(** Lines 253-266: the spawn timer and the spawn. *)
Definition spawnStep (delta : Q) (rnd : Rand) (g : Game) : Game :=
  let g1 := set_spawnTimer (spawnTimer g - delta) g in
  if Qleb (spawnTimer g1) 0 then
    let g2 := set_obstacles (obstacles g1 ++ [newObstacle rnd]) g1 in
    let g3 := set_spawnTimer
                ((8 # 10) / difficultyBoost (scoreRef g2) + rJitter rnd * (4 # 10)) g2 in
    set_speed (Qmin 360 (speed g3 + 3)) g3
  else g1.

(** Lines 269-275: the callback of [obstacles.forEach], applied to one
    obstacle.  It gives the obstacle as mutated and the closure state. *)
Definition scoreObstacle (delta : Q) (obstacle : Obstacle.t) (g : Game)
  : Obstacle.t * Game :=
  let o1 := Obstacle.mk (Obstacle.x obstacle - speed g * delta)
                        (Obstacle.width obstacle) (Obstacle.height obstacle)
                        (Obstacle.passed obstacle) in
  if (negb (Obstacle.passed o1)
      && Qltb (Obstacle.x o1 + Obstacle.width o1) (Player.x (player g)))%bool
  then
    let o2 := Obstacle.mk (Obstacle.x o1) (Obstacle.width o1)
                          (Obstacle.height o1) true in
    let newScore := (scoreRef g + 1)%Z in
    (o2, updateBest newScore (setScoreSafe newScore g))
  else (o1, g).

(** Lines 268-276: [forEach] visits the obstacles in order. *)
Fixpoint forEachObstacle (delta : Q) (obs : list Obstacle.t) (g : Game)
  : list Obstacle.t * Game :=
  match obs with
  | [] => ([], g)
  | obstacle :: rest =>
      let '(o', g1) := scoreObstacle delta obstacle g in
      let '(rest', g2) := forEachObstacle delta rest g1 in
      (o' :: rest', g2)
  end.

Definition moveAndScore (delta : Q) (g : Game) : Game :=
  let '(obs', g1) := forEachObstacle delta (obstacles g) g in
  set_obstacles obs' g1.

(** Line 278. *)
Definition onScreen (obstacle : Obstacle.t) : bool :=
  Qltb (-20) (Obstacle.x obstacle + Obstacle.width obstacle).

Definition cull (g : Game) : Game :=
  set_obstacles (List.filter onScreen (obstacles g)) g.

(** Lines 280-284: the callback of [obstacles.some]. *)
Definition overlaps (p : Player.t) (obstacle : Obstacle.t) : bool :=
  let withinX :=
    (Qltb (Obstacle.x obstacle) (Player.x p + PLAYER_SIZE - 6)
     && Qltb (Player.x p + 6) (Obstacle.x obstacle + Obstacle.width obstacle))%bool in
  let withinY :=
    Qltb (groundY - Obstacle.height obstacle) (Player.y p + PLAYER_SIZE) in
  (withinX && withinY)%bool.

Definition hit (g : Game) : bool :=
  existsb (overlaps (player g)) (obstacles g).

(** Lines 241-289. *)
Definition updateGame (delta : Q) (rnd : Rand) (g : Game) : Game :=
  let g1 := set_player (stepPlayer delta (player g)) g in
  let g2 := spawnStep delta rnd g1 in
  let g3 := moveAndScore delta g2 in
  let g4 := cull g3 in
  if hit g4 then endGame g4 else g4.

(** Line 292. *)
Definition frameDelta (time : Q) (g : Game) : Q :=
  Qmin (35 # 1000) ((time - lastTime g) / 1000).

(** Lines 291-299. *)
Definition loop (time : Q) (rnd : Rand) (g : Game) : Game :=
  let delta := frameDelta time g in
  let g1 := set_lastTime time g in
  if GameStatus_eqb (statusRef g1) running then updateGame delta rnd g1 else g1.

(** Lines 301-313. *)
Definition prepareGame (g : Game) : Game :=
  let g1 := set_obstacles [] g in
  let g2 := set_spawnTimer 1 g1 in
  let g3 := set_speed 190 g2 in
  let g4 := set_player (Player.mk 74 (groundY - PLAYER_SIZE) 0 true) g3 in
  setStatusSafe ready (setScoreSafe 0%Z g4).

(** Lines 315-321; [now] is the reading of [performance.now()]. *)
Definition startGame (now : Q) (g : Game) : Game :=
  if GameStatus_eqb (statusRef g) running then g
  else setStatusSafe running (set_lastTime now g).

(** Lines 323-328. *)
Definition jump (g : Game) : Game :=
  if negb (GameStatus_eqb (statusRef g) running) then g
  else if negb (Player.onGround (player g)) then g
  else set_player (Player.mk (Player.x (player g)) (Player.y (player g))
                             JUMP_VELOCITY false) g.

(** Lines 330-343 (and 374-388, the overlay button, which calls the same
    three functions).  In status ready the jump is deferred to a frame
    callback of its own: it is the event [DeferredJump] below. *)
Definition handlePointerDown (now : Q) (g : Game) : Game :=
  if GameStatus_eqb (statusRef g) ready then startGame now g
  else if GameStatus_eqb (statusRef g) over then startGame now (prepareGame g)
  else jump g.

(** The state after the component is mounted: the refs and closure
    variables as initialised (lines 50-52 and 73-86), the first effect
    (lines 58-65), then [prepareGame()] (line 356). *)
Definition initialGame (storage : gmap jsString jsString) (now : Q) : Game :=
  mkGame ready 0%Z (JsNum.Fin 0) storage now [] 1 190
         (Player.mk 74 (groundY - PLAYER_SIZE) 0 true).

Definition mount (storage : gmap jsString jsString) (now : Q) : Game :=
  prepareGame (loadBest (initialGame storage now)).

(** ** The transition system *)

Inductive Event : Type :=
| Frame (time : Q) (rnd : Rand)   (* the scheduler calls [loop] *)
| DeferredJump                    (* the scheduler calls [() => jump()] *)
| PointerDown (now : Q).          (* pointer press, Space key, overlay button *)

Definition validEvent (ev : Event) : Prop :=
  match ev with
  | Frame _ rnd => validRand rnd
  | _ => True
  end.

Definition step (ev : Event) (g : Game) : Game :=
  match ev with
  | Frame time rnd => loop time rnd g
  | DeferredJump => jump g
  | PointerDown now => handlePointerDown now g
  end.

Definition run (evs : list Event) (g : Game) : Game :=
  fold_left (fun acc ev => step ev acc) evs g.

Inductive reachable : Game -> Prop :=
| reachable_mount storage now : reachable (mount storage now)
| reachable_step ev g : reachable g -> validEvent ev -> reachable (step ev g).

(** ** Vocabulary of the statements *)

(** [untouched g g'] : the part of the closure that only the physics, the
    spawner and the lifecycle functions write is the same in both. *)
Definition untouched (g g' : Game) : Prop :=
  statusRef g' = statusRef g /\ lastTime g' = lastTime g
  /\ spawnTimer g' = spawnTimer g /\ speed g' = speed g
  /\ player g' = player g.

(** The callback of [forEach], read as a pure function of the obstacle:
    whether it is scored, what it becomes, and how many of a list are scored. *)
Definition crossed (dx px : Q) (o : Obstacle.t) : bool :=
  (negb (Obstacle.passed o)
   && Qltb (Obstacle.x o - dx + Obstacle.width o) px)%bool.

Definition moved (dx px : Q) (o : Obstacle.t) : Obstacle.t :=
  Obstacle.mk (Obstacle.x o - dx) (Obstacle.width o) (Obstacle.height o)
              (Obstacle.passed o || crossed dx px o).

Definition crossings (dx px : Q) (obs : list Obstacle.t) : nat :=
  length (List.filter (crossed dx px) obs).

(** The state on which the collision test of a tick is made. *)
Definition beforeCollision (delta : Q) (rnd : Rand) (g : Game) : Game :=
  cull (moveAndScore delta
          (spawnStep delta rnd (set_player (stepPlayer delta (player g)) g))).

Definition playerInv (p : Player.t) : Prop :=
  Player.x p = 74
  /\ Player.y p <= restY
  /\ (Player.onGround p = true -> Player.y p = restY).

Record Inv (g : Game) : Prop := mkInv {
  inv_player : playerInv (player g);
  inv_speed : 190 <= speed g /\ speed g <= 360;
  inv_score : (0 <= scoreRef g)%Z;
  inv_best : (JsNum.Fin (scoreRef g) <= bestRef g)%num
}.

(** The score gained from one obstacle over a sequence of ticks: the
    obstacle is handed to the [forEach] callback once per tick, each time
    with that tick's delta and closure state. *)
Fixpoint scoredTimes (o : Obstacle.t) (ticks : list (Q * Game)) : Z :=
  match ticks with
  | [] => 0%Z
  | (delta, g) :: rest =>
      let '(o', g') := scoreObstacle delta o g in
      (scoreRef g' - scoreRef g + scoredTimes o' rest)%Z
  end.

(** The obstacles of a list that are not yet marked passed. *)
Definition unpassed (obs : list Obstacle.t) : nat :=
  length (List.filter (fun o => negb (Obstacle.passed o)) obs).

(** The number of obstacles an event spawns in a state: one for a frame
    of a running game whose countdown, less the frame's delta, has run
    out. *)
Definition spawnsAt (ev : Event) (g : Game) : nat :=
  match ev with
  | Frame time rnd =>
      if (GameStatus_eqb (statusRef g) running
          && Qleb (spawnTimer g - frameDelta time g) 0)%bool
      then 1%nat else 0%nat
  | _ => 0%nat
  end.

Fixpoint spawnCount (evs : list Event) (g : Game) : nat :=
  match evs with
  | [] => 0%nat
  | ev :: rest => (spawnsAt ev g + spawnCount rest (step ev g))%nat
  end.

(** No pointer press of the sequence finds the game over: the sequence
    stays within one run. *)
Fixpoint noRestart (evs : list Event) (g : Game) : Prop :=
  match evs with
  | [] => True
  | ev :: rest =>
      match ev with
      | PointerDown _ => statusRef g <> over
      | _ => True
      end
      /\ noRestart rest (step ev g)
  end.

(** [keeps g g'] : the best score has not decreased, and the stored value
    is the same unless the best score has grown. *)
Definition keeps (g g' : Game) : Prop :=
  (bestRef g <= bestRef g')%num
  /\ (bestRef g' = bestRef g -> localStorage g' = localStorage g).

(** The shape of a numeric string, for the statements about [parseInt]. *)
Definition isDigit (c : N) : bool := ((48 <=? c) && (c <=? 57))%N.

Definition startsWithDigit (s : jsString) : bool :=
  match s with
  | c :: _ => isDigit c
  | [] => false
  end.

(** A sign is the empty string, a plus or a minus. *)
Definition isSign (sign : jsString) : bool :=
  match sign with
  | [] => true
  | [c] => ((c =? 43) || (c =? 45))%N
  | _ => false
  end.

Definition signOf (sign : jsString) : Z :=
  match sign with
  | [c] => if (c =? 45)%N then (-1)%Z else 1%Z
  | _ => 1%Z
  end.

(** The integer that a run of decimal digits writes. *)
Definition decimalValue (digits : jsString) : Z :=
  fold_left (fun acc c => (10 * acc + (Z.of_N c - 48))%Z) digits 0%Z.

(** What neither white space nor a sign nor a digit opens: where an
    unsigned string must start for [parseInt] to find no number. *)
Definition opensNothing (s : jsString) : bool :=
  match s with
  | c :: _ =>
      negb (isWhiteSpace c || isDigit c || (c =? 43)%N || (c =? 45)%N)
  | [] => true
  end.

(** ** States and draws used in the examples *)

(** Four hundred digits 9. *)
Definition nines400 : jsString := repeat 57%N 400.

Definition halfRand : Rand := mkRand (1 # 2) (1 # 2) (1 # 2).

Definition originObstacle (p : bool) : Obstacle.t := Obstacle.mk 0 50 80 p.

Definition playerAtRest : Player.t := Player.mk 74 restY 0 true.

(** A running game with the player at rest and that obstacle alone. *)
Definition injectedRun : Game :=
  set_obstacles [originObstacle false] (startGame 0 (mount ∅ 0)).

(** The state right after the first jump of a run: a pointer press starts
    the run, the first frame leaves the player at rest, then the deferred
    jump is called. *)
Definition afterFirstJump : Game :=
  run [PointerDown 0; Frame 16 halfRand; DeferredJump] (mount ∅ 0).

(** A run in which one obstacle is about to be scored while the next one
    is already under the player. *)
Definition closePair : Game :=
  set_obstacles [originObstacle false; Obstacle.mk 90 50 80 false]
                (startGame 0 (mount ∅ 0)).

(** The state of a run 28 frames of 35 ms after its start: the spawn timer
    is down to 0.02, so the next frame spawns. *)
Definition beforeFirstSpawn : Game :=
  run (PointerDown 0
         :: map (fun k : nat => Frame (inject_Z (35 * Z.of_nat k)) halfRand)
                (seq 1 28))
      (mount ∅ 0).

(** * Proofs *)

(** ** The order of the host's numbers *)

Ltac jsnum :=
  unfold JsNum.le, JsNum.lt, JsNum.ltb, JsNum.max in *;
  repeat match goal with
         | x : JsNum.t |- _ => destruct x
         end;
  simpl in *;
  repeat match goal with
         | H : context [(?a <=? ?b)%Z] |- _ =>
             destruct (Z.leb_spec a b); simpl in H
         | |- context [(?a <=? ?b)%Z] => destruct (Z.leb_spec a b); simpl
         end;
  try congruence; try lia; try (f_equal; lia).

Lemma JsNum_le_refl (a : JsNum.t) : (a <= a)%num.
Proof. jsnum. Qed.

Lemma JsNum_le_trans (a b c : JsNum.t) :
  (a <= b)%num -> (b <= c)%num -> (a <= c)%num.
Proof. intros; jsnum. Qed.

Lemma JsNum_le_antisym (a b : JsNum.t) :
  (a <= b)%num -> (b <= a)%num -> a = b.
Proof. intros; jsnum. Qed.

Lemma JsNum_lt_le (a b : JsNum.t) : (a < b)%num -> (a <= b)%num.
Proof. intros; jsnum. Qed.

Lemma JsNum_lt_irrefl (a : JsNum.t) : ~ (a < a)%num.
Proof. intros H; jsnum. Qed.

Lemma JsNum_le_lt_trans (a b c : JsNum.t) :
  (a <= b)%num -> (b < c)%num -> (a < c)%num.
Proof. intros; jsnum. Qed.

Lemma JsNum_lt_le_trans (a b c : JsNum.t) :
  (a < b)%num -> (b <= c)%num -> (a < c)%num.
Proof. intros; jsnum. Qed.

Lemma JsNum_le_or_lt (a b : JsNum.t) : (a <= b)%num \/ (b < a)%num.
Proof. jsnum; auto. Qed.

Lemma JsNum_le_neq_lt (a b : JsNum.t) : (a <= b)%num -> a <> b -> (a < b)%num.
Proof. intros H Hn; jsnum. exfalso. apply Hn. f_equal. lia. Qed.

Lemma JsNum_le_Fin (x y : Z) : (JsNum.Fin x <= JsNum.Fin y)%num <-> (x <= y)%Z.
Proof. unfold JsNum.le; simpl. apply Z.leb_le. Qed.

Lemma JsNum_lt_Fin (x y : Z) : (JsNum.Fin x < JsNum.Fin y)%num <-> (x < y)%Z.
Proof. unfold JsNum.lt, JsNum.ltb; simpl. rewrite negb_true_iff. apply Z.leb_gt. Qed.

Lemma JsNum_max_l (a b : JsNum.t) : (a <= JsNum.max a b)%num.
Proof. jsnum. Qed.

Lemma JsNum_max_r (a b : JsNum.t) : (b <= JsNum.max a b)%num.
Proof. jsnum. Qed.

Lemma JsNum_max_le (a b : JsNum.t) : (b <= a)%num -> JsNum.max a b = a.
Proof. intros; jsnum. Qed.

Lemma JsNum_max_lt (a b : JsNum.t) : (a < b)%num -> JsNum.max a b = b.
Proof. intros; jsnum. Qed.

Lemma JsNum_max_assoc_Fin (a : JsNum.t) (x y : Z) :
  (x <= y)%Z ->
  JsNum.max (JsNum.max a (JsNum.Fin x)) (JsNum.Fin y) = JsNum.max a (JsNum.Fin y).
Proof. intros; jsnum. Qed.

Lemma JsNum_eq_dec (a b : JsNum.t) : {a = b} + {a <> b}.
Proof. decide equality. apply Z.eq_dec. Qed.

(** ** Boolean comparisons *)

Lemma Qleb_le (a b : Q) : Qleb a b = true <-> a <= b.
Proof. apply Qle_bool_iff. Qed.

Lemma Qleb_gt (a b : Q) : Qleb a b = false <-> b < a.
Proof.
  unfold Qleb. rewrite <- not_true_iff_false, Qle_bool_iff.
  split; [apply Qnot_le_lt | apply Qlt_not_le].
Qed.

Lemma Qltb_lt (a b : Q) : Qltb a b = true <-> a < b.
Proof. unfold Qltb. rewrite negb_true_iff. apply Qleb_gt. Qed.

Lemma Qltb_ge (a b : Q) : Qltb a b = false <-> b <= a.
Proof. unfold Qltb. rewrite negb_false_iff. apply Qle_bool_iff. Qed.

Lemma GameStatus_eqb_eq (a b : GameStatus) : GameStatus_eqb a b = true <-> a = b.
Proof. destruct a, b; simpl; split; congruence. Qed.

(** ** What each function leaves alone *)

Lemma untouched_refl (g : Game) : untouched g g.
Proof. repeat split. Qed.

Lemma untouched_trans (g1 g2 g3 : Game) :
  untouched g1 g2 -> untouched g2 g3 -> untouched g1 g3.
Proof.
  unfold untouched. intros (a1 & a2 & a3 & a4 & a5) (b1 & b2 & b3 & b4 & b5).
  repeat split; congruence.
Qed.

Lemma updateBest_cases (value : Z) (g : Game) :
  ((JsNum.Fin value <= bestRef g)%num /\ updateBest value g = g)
  \/ ((bestRef g < JsNum.Fin value)%num
      /\ updateBest value g =
         set_localStorage (<[BEST_KEY := numberToString value]> (localStorage g))
                          (set_bestRef (JsNum.Fin value) g)).
Proof.
  unfold updateBest, JsNum.le, JsNum.lt, JsNum.ltb.
  destruct (JsNum.leb (JsNum.Fin value) (bestRef g)); [left | right]; auto.
Qed.

Lemma updateBest_untouched (value : Z) (g : Game) : untouched g (updateBest value g).
Proof.
  destruct (updateBest_cases value g) as [[_ ->] | [_ ->]]; repeat split.
Qed.

Lemma updateBest_scoreRef (value : Z) (g : Game) :
  scoreRef (updateBest value g) = scoreRef g.
Proof. destruct (updateBest_cases value g) as [[_ ->] | [_ ->]]; reflexivity. Qed.

Lemma updateBest_obstacles (value : Z) (g : Game) :
  obstacles (updateBest value g) = obstacles g.
Proof. destruct (updateBest_cases value g) as [[_ ->] | [_ ->]]; reflexivity. Qed.

Lemma updateBest_bestRef (value : Z) (g : Game) :
  bestRef (updateBest value g) = JsNum.max (bestRef g) (JsNum.Fin value).
Proof.
  destruct (updateBest_cases value g) as [[H ->] | [H ->]]; simpl.
  - symmetry. now apply JsNum_max_le.
  - symmetry. now apply JsNum_max_lt.
Qed.

Lemma scoreObstacle_cases (delta : Q) (o : Obstacle.t) (g : Game) :
  let dx := speed g * delta in
  let px := Player.x (player g) in
  (crossed dx px o = true
   /\ scoreObstacle delta o g =
      (moved dx px o,
       updateBest (scoreRef g + 1) (setScoreSafe (scoreRef g + 1) g)))
  \/ (crossed dx px o = false /\ scoreObstacle delta o g = (moved dx px o, g)).
Proof.
  unfold scoreObstacle, moved, crossed; simpl.
  destruct (Obstacle.passed o); simpl; [right; auto |].
  destruct (Qltb _ _); [left | right]; auto.
Qed.

Lemma scoreObstacle_untouched (delta : Q) (o : Obstacle.t) (g : Game) :
  untouched g (scoreObstacle delta o g).2.
Proof.
  destruct (scoreObstacle_cases delta o g) as [[_ ->] | [_ ->]]; simpl.
  - eapply untouched_trans; [|apply updateBest_untouched]. repeat split.
  - apply untouched_refl.
Qed.

Lemma forEachObstacle_untouched (delta : Q) (obs : list Obstacle.t) (g : Game) :
  untouched g (forEachObstacle delta obs g).2.
Proof.
  revert g. induction obs as [|o rest IH]; intros g; simpl.
  - apply untouched_refl.
  - pose proof (scoreObstacle_untouched delta o g) as H1.
    destruct (scoreObstacle delta o g) as [o' g1]; simpl in H1.
    specialize (IH g1).
    destruct (forEachObstacle delta rest g1) as [rest' g2]; simpl in *.
    eapply untouched_trans; eassumption.
Qed.

Lemma forEachObstacle_moved (delta : Q) (obs : list Obstacle.t) (g : Game) :
  (forEachObstacle delta obs g).1 =
  map (moved (speed g * delta) (Player.x (player g))) obs.
Proof.
  revert g. induction obs as [|o rest IH]; intros g; simpl; [reflexivity|].
  pose proof (scoreObstacle_untouched delta o g) as (_ & _ & _ & Hs & Hp).
  assert ((scoreObstacle delta o g).1 =
          moved (speed g * delta) (Player.x (player g)) o) as Ho
    by (destruct (scoreObstacle_cases delta o g) as [[_ ->] | [_ ->]]; reflexivity).
  destruct (scoreObstacle delta o g) as [o' g1]; simpl in *.
  specialize (IH g1).
  destruct (forEachObstacle delta rest g1) as [rest' g2]; simpl in *.
  rewrite Ho, IH, Hs, Hp. reflexivity.
Qed.

Lemma crossings_cons (dx px : Q) (o : Obstacle.t) (rest : list Obstacle.t) :
  crossings dx px (o :: rest) =
  ((if crossed dx px o then 1 else 0) + crossings dx px rest)%nat.
Proof. unfold crossings; simpl. destruct (crossed dx px o); reflexivity. Qed.

Lemma forEachObstacle_cons (delta : Q) (o : Obstacle.t) (rest : list Obstacle.t)
      (g : Game) :
  forEachObstacle delta (o :: rest) g =
  ((scoreObstacle delta o g).1
     :: (forEachObstacle delta rest (scoreObstacle delta o g).2).1,
   (forEachObstacle delta rest (scoreObstacle delta o g).2).2).
Proof.
  simpl. destruct (scoreObstacle delta o g) as [o' g1]; simpl.
  destruct (forEachObstacle delta rest g1); reflexivity.
Qed.

Lemma forEachObstacle_scoreRef (delta : Q) (obs : list Obstacle.t) (g : Game) :
  scoreRef (forEachObstacle delta obs g).2 =
  (scoreRef g +
   Z.of_nat (crossings (speed g * delta) (Player.x (player g)) obs))%Z.
Proof.
  revert g. induction obs as [|o rest IH]; intros g.
  - unfold crossings; simpl; lia.
  - rewrite forEachObstacle_cons, crossings_cons; simpl. rewrite IH.
    pose proof (scoreObstacle_untouched delta o g) as (_ & _ & _ & -> & ->).
    destruct (scoreObstacle_cases delta o g) as [[Hc ->] | [Hc ->]];
      simpl in Hc; rewrite Hc; simpl; rewrite ?updateBest_scoreRef; simpl; lia.
Qed.

Lemma forEachObstacle_bestRef (delta : Q) (obs : list Obstacle.t) (g : Game) :
  let n := crossings (speed g * delta) (Player.x (player g)) obs in
  bestRef (forEachObstacle delta obs g).2 =
  if Nat.eqb n 0 then bestRef g
  else JsNum.max (bestRef g) (JsNum.Fin (scoreRef g + Z.of_nat n)).
Proof.
  revert g. induction obs as [|o rest IH]; intros g.
  - reflexivity.
  - cbv zeta in *. rewrite forEachObstacle_cons, crossings_cons; simpl. rewrite IH.
    pose proof (scoreObstacle_untouched delta o g) as (_ & _ & _ & -> & ->).
    destruct (scoreObstacle_cases delta o g) as [[Hc ->] | [Hc ->]];
      simpl in Hc; rewrite Hc; simpl; [|reflexivity].
    rewrite updateBest_bestRef, updateBest_scoreRef; simpl.
    destruct (crossings _ _ rest) as [|m]; simpl.
    + apply (f_equal (JsNum.max (bestRef g))), (f_equal JsNum.Fin); lia.
    + rewrite JsNum_max_assoc_Fin by lia.
      apply (f_equal (JsNum.max (bestRef g))), (f_equal JsNum.Fin); lia.
Qed.

Lemma moveAndScore_eq (delta : Q) (g : Game) :
  moveAndScore delta g =
  set_obstacles (forEachObstacle delta (obstacles g) g).1
                (forEachObstacle delta (obstacles g) g).2.
Proof. unfold moveAndScore. destruct (forEachObstacle _ _ _); reflexivity. Qed.

Lemma moveAndScore_untouched (delta : Q) (g : Game) :
  untouched g (moveAndScore delta g).
Proof.
  rewrite moveAndScore_eq.
  eapply untouched_trans; [apply forEachObstacle_untouched | repeat split].
Qed.

Lemma moveAndScore_obstacles (delta : Q) (g : Game) :
  obstacles (moveAndScore delta g) =
  map (moved (speed g * delta) (Player.x (player g))) (obstacles g).
Proof. rewrite moveAndScore_eq. simpl. apply forEachObstacle_moved. Qed.

Lemma moveAndScore_scoreRef (delta : Q) (g : Game) :
  scoreRef (moveAndScore delta g) =
  (scoreRef g +
   Z.of_nat (crossings (speed g * delta) (Player.x (player g)) (obstacles g)))%Z.
Proof. rewrite moveAndScore_eq. simpl. apply forEachObstacle_scoreRef. Qed.

Lemma moveAndScore_bestRef (delta : Q) (g : Game) :
  let n := crossings (speed g * delta) (Player.x (player g)) (obstacles g) in
  bestRef (moveAndScore delta g) =
  if Nat.eqb n 0 then bestRef g
  else JsNum.max (bestRef g) (JsNum.Fin (scoreRef g + Z.of_nat n)).
Proof. rewrite moveAndScore_eq. simpl. apply forEachObstacle_bestRef. Qed.

Lemma endGame_cases (g : Game) :
  (statusRef g <> running /\ endGame g = g)
  \/ (statusRef g = running
      /\ endGame g = updateBest (scoreRef g) (setStatusSafe over g)).
Proof.
  unfold endGame. destruct (statusRef g) eqn:E; simpl; auto; left; split;
    congruence.
Qed.

Lemma endGame_player (g : Game) : player (endGame g) = player g.
Proof.
  destruct (endGame_cases g) as [[_ ->] | [_ ->]]; [reflexivity|].
  now destruct (updateBest_untouched (scoreRef g) (setStatusSafe over g))
    as (_ & _ & ? & ? & ?).
Qed.

Lemma endGame_speed (g : Game) : speed (endGame g) = speed g.
Proof.
  destruct (endGame_cases g) as [[_ ->] | [_ ->]]; [reflexivity|].
  now destruct (updateBest_untouched (scoreRef g) (setStatusSafe over g))
    as (_ & _ & ? & ? & ?).
Qed.

Lemma endGame_spawnTimer (g : Game) : spawnTimer (endGame g) = spawnTimer g.
Proof.
  destruct (endGame_cases g) as [[_ ->] | [_ ->]]; [reflexivity|].
  now destruct (updateBest_untouched (scoreRef g) (setStatusSafe over g))
    as (_ & _ & ? & ? & ?).
Qed.

Lemma endGame_scoreRef (g : Game) : scoreRef (endGame g) = scoreRef g.
Proof.
  destruct (endGame_cases g) as [[_ ->] | [_ ->]]; [reflexivity|].
  now rewrite updateBest_scoreRef.
Qed.

Lemma endGame_obstacles (g : Game) : obstacles (endGame g) = obstacles g.
Proof.
  destruct (endGame_cases g) as [[_ ->] | [_ ->]]; [reflexivity|].
  now rewrite updateBest_obstacles.
Qed.

Lemma spawnStep_cases (delta : Q) (rnd : Rand) (g : Game) :
  (spawnTimer g - delta <= 0
   /\ spawnStep delta rnd g =
      set_speed (Qmin 360 (speed g + 3))
        (set_spawnTimer
           ((8 # 10) / difficultyBoost (scoreRef g) + rJitter rnd * (4 # 10))
           (set_obstacles (obstacles g ++ [newObstacle rnd]) g)))
  \/ (0 < spawnTimer g - delta
      /\ spawnStep delta rnd g = set_spawnTimer (spawnTimer g - delta) g).
Proof.
  unfold spawnStep; simpl.
  destruct (Qleb (spawnTimer g - delta) 0) eqn:E; [left | right]; split;
    try reflexivity.
  - now apply Qleb_le.
  - now apply Qleb_gt.
Qed.

Lemma spawnStep_player (delta : Q) (rnd : Rand) (g : Game) :
  player (spawnStep delta rnd g) = player g.
Proof. destruct (spawnStep_cases delta rnd g) as [[_ ->] | [_ ->]]; reflexivity. Qed.

Lemma spawnStep_statusRef (delta : Q) (rnd : Rand) (g : Game) :
  statusRef (spawnStep delta rnd g) = statusRef g.
Proof. destruct (spawnStep_cases delta rnd g) as [[_ ->] | [_ ->]]; reflexivity. Qed.

Lemma spawnStep_scoreRef (delta : Q) (rnd : Rand) (g : Game) :
  scoreRef (spawnStep delta rnd g) = scoreRef g.
Proof. destruct (spawnStep_cases delta rnd g) as [[_ ->] | [_ ->]]; reflexivity. Qed.

Lemma spawnStep_bestRef (delta : Q) (rnd : Rand) (g : Game) :
  bestRef (spawnStep delta rnd g) = bestRef g.
Proof. destruct (spawnStep_cases delta rnd g) as [[_ ->] | [_ ->]]; reflexivity. Qed.

Lemma updateGame_eq (delta : Q) (rnd : Rand) (g : Game) :
  updateGame delta rnd g =
  if hit (beforeCollision delta rnd g)
  then endGame (beforeCollision delta rnd g)
  else beforeCollision delta rnd g.
Proof. reflexivity. Qed.

Lemma beforeCollision_player (delta : Q) (rnd : Rand) (g : Game) :
  player (beforeCollision delta rnd g) = stepPlayer delta (player g).
Proof.
  unfold beforeCollision, cull; simpl.
  destruct (moveAndScore_untouched delta
    (spawnStep delta rnd (set_player (stepPlayer delta (player g)) g)))
    as (_ & _ & _ & _ & ->).
  now rewrite spawnStep_player.
Qed.

Lemma beforeCollision_statusRef (delta : Q) (rnd : Rand) (g : Game) :
  statusRef (beforeCollision delta rnd g) = statusRef g.
Proof.
  unfold beforeCollision, cull; simpl.
  destruct (moveAndScore_untouched delta
    (spawnStep delta rnd (set_player (stepPlayer delta (player g)) g)))
    as (-> & _).
  now rewrite spawnStep_statusRef.
Qed.

Lemma updateGame_player (delta : Q) (rnd : Rand) (g : Game) :
  player (updateGame delta rnd g) = stepPlayer delta (player g).
Proof.
  rewrite updateGame_eq. destruct (hit _); rewrite ?endGame_player;
    apply beforeCollision_player.
Qed.

(** ** Invariants of the reachable states *)

Lemma stepPlayer_cases (delta : Q) (p : Player.t) :
  let vy1 := Player.vy p + GRAVITY * delta in
  let y1 := Player.y p + vy1 * delta in
  (restY <= y1 /\ stepPlayer delta p = Player.mk (Player.x p) restY 0 true)
  \/ (y1 < restY /\ stepPlayer delta p = Player.mk (Player.x p) y1 vy1 false).
Proof.
  unfold stepPlayer, restY; simpl.
  destruct (Qleb _ _) eqn:E; [left | right]; split; try reflexivity.
  - now apply Qleb_le.
  - now apply Qleb_gt.
Qed.

Lemma stepPlayer_inv (delta : Q) (p : Player.t) :
  Player.x p = 74 -> playerInv (stepPlayer delta p).
Proof.
  intros Hx. destruct (stepPlayer_cases delta p) as [[H ->] | [H ->]];
    repeat split; simpl; auto; try lra; discriminate.
Qed.

Lemma Qmin_cap_speed (s : Q) :
  190 <= s -> 190 <= Qmin 360 (s + 3) /\ Qmin 360 (s + 3) <= 360.
Proof.
  intros H. split; [apply Q.min_glb; lra | apply Q.le_min_l].
Qed.

Lemma prepareGame_inv (g : Game) :
  (JsNum.Fin 0 <= bestRef g)%num -> Inv (prepareGame g).
Proof.
  intros Hb. split; simpl; try lia; try exact Hb.
  - repeat split. apply Qle_refl.
  - lra.
Qed.

Lemma loadBest_bestRef_nonneg (g : Game) :
  (JsNum.Fin 0 <= bestRef g)%num -> (JsNum.Fin 0 <= bestRef (loadBest g))%num.
Proof.
  unfold loadBest. destruct (readSaved _) as [saved|]; auto.
  destruct (JsNum.ltb (JsNum.Fin 0) saved) eqn:E; simpl; auto.
  intros _. now apply JsNum_lt_le.
Qed.

Lemma mount_inv (storage : gmap jsString jsString) (now : Q) :
  Inv (mount storage now).
Proof.
  apply prepareGame_inv, loadBest_bestRef_nonneg. apply JsNum_le_refl.
Qed.

Lemma jump_cases (g : Game) :
  (statusRef g = running /\ Player.onGround (player g) = true
   /\ jump g = set_player (Player.mk (Player.x (player g)) (Player.y (player g))
                                     JUMP_VELOCITY false) g)
  \/ ((statusRef g <> running \/ Player.onGround (player g) = false)
      /\ jump g = g).
Proof.
  unfold jump.
  destruct (statusRef g) eqn:Es; simpl;
    try (right; split; [left; congruence | reflexivity]).
  destruct (Player.onGround (player g)) eqn:Eg; simpl; [left | right]; auto.
Qed.

Lemma jump_inv (g : Game) : Inv g -> Inv (jump g).
Proof.
  intros [(Hx & Hy & Hg) Hs H0 Hb].
  destruct (jump_cases g) as [(_ & _ & ->) | (_ & ->)].
  - split; simpl; auto. repeat split; simpl; auto. discriminate.
  - split; auto. repeat split; auto.
Qed.

Lemma startGame_inv (now : Q) (g : Game) : Inv g -> Inv (startGame now g).
Proof.
  intros [Hp Hs H0 Hb]. unfold startGame.
  destruct (GameStatus_eqb _ _); split; simpl; auto.
Qed.

Lemma handlePointerDown_inv (now : Q) (g : Game) :
  Inv g -> Inv (handlePointerDown now g).
Proof.
  intros H. unfold handlePointerDown.
  destruct (GameStatus_eqb (statusRef g) ready); [now apply startGame_inv|].
  destruct (GameStatus_eqb (statusRef g) over); [|now apply jump_inv].
  apply startGame_inv, prepareGame_inv. destruct H as [_ _ H0 Hb].
  eapply JsNum_le_trans; [|exact Hb]. now apply JsNum_le_Fin.
Qed.

Lemma beforeCollision_speed (delta : Q) (rnd : Rand) (g : Game) :
  speed (beforeCollision delta rnd g) =
  speed (spawnStep delta rnd (set_player (stepPlayer delta (player g)) g)).
Proof.
  unfold beforeCollision, cull; simpl.
  now destruct (moveAndScore_untouched delta
    (spawnStep delta rnd (set_player (stepPlayer delta (player g)) g)))
    as (_ & _ & _ & -> & _).
Qed.

Lemma beforeCollision_spawnTimer (delta : Q) (rnd : Rand) (g : Game) :
  spawnTimer (beforeCollision delta rnd g) =
  spawnTimer (spawnStep delta rnd (set_player (stepPlayer delta (player g)) g)).
Proof.
  unfold beforeCollision, cull; simpl.
  now destruct (moveAndScore_untouched delta
    (spawnStep delta rnd (set_player (stepPlayer delta (player g)) g)))
    as (_ & _ & -> & _).
Qed.

Lemma beforeCollision_scoreRef (delta : Q) (rnd : Rand) (g : Game) :
  let g2 := spawnStep delta rnd (set_player (stepPlayer delta (player g)) g) in
  scoreRef (beforeCollision delta rnd g) =
  (scoreRef g +
   Z.of_nat (crossings (speed g2 * delta) (Player.x (player g)) (obstacles g2)))%Z.
Proof.
  cbv zeta. unfold beforeCollision, cull; simpl.
  rewrite moveAndScore_scoreRef, spawnStep_scoreRef, spawnStep_player. simpl.
  destruct (stepPlayer_cases delta (player g)) as [[_ ->] | [_ ->]]; reflexivity.
Qed.

Lemma beforeCollision_bestRef (delta : Q) (rnd : Rand) (g : Game) :
  let g2 := spawnStep delta rnd (set_player (stepPlayer delta (player g)) g) in
  let n := crossings (speed g2 * delta) (Player.x (player g)) (obstacles g2) in
  bestRef (beforeCollision delta rnd g) =
  if Nat.eqb n 0 then bestRef g
  else JsNum.max (bestRef g) (JsNum.Fin (scoreRef g + Z.of_nat n)).
Proof.
  cbv zeta. unfold beforeCollision, cull; simpl.
  rewrite moveAndScore_bestRef, spawnStep_scoreRef, spawnStep_player,
    spawnStep_bestRef. simpl.
  destruct (stepPlayer_cases delta (player g)) as [[_ ->] | [_ ->]]; reflexivity.
Qed.

Lemma spawnStep_speed_inv (delta : Q) (rnd : Rand) (g : Game) :
  190 <= speed g /\ speed g <= 360 ->
  190 <= speed (spawnStep delta rnd g) /\ speed (spawnStep delta rnd g) <= 360.
Proof.
  intros [Hl Hu]. destruct (spawnStep_cases delta rnd g) as [[_ ->] | [_ ->]];
    simpl; auto using Qmin_cap_speed.
Qed.

Lemma endGame_bestRef (g : Game) :
  statusRef g = running ->
  bestRef (endGame g) = JsNum.max (bestRef g) (JsNum.Fin (scoreRef g)).
Proof.
  intros Hr. destruct (endGame_cases g) as [[Hn _] | [_ ->]]; [congruence|].
  now rewrite updateBest_bestRef.
Qed.

Lemma endGame_bestRef_le (g : Game) : (bestRef g <= bestRef (endGame g))%num.
Proof.
  destruct (endGame_cases g) as [[_ ->] | [_ ->]]; [apply JsNum_le_refl|].
  rewrite updateBest_bestRef. simpl. apply JsNum_max_l.
Qed.

Lemma updateGame_inv (delta : Q) (rnd : Rand) (g : Game) :
  Inv g -> Inv (updateGame delta rnd g).
Proof.
  intros [(Hx & Hy & Hg) Hs H0 Hb].
  assert (Inv (beforeCollision delta rnd g)) as Hbc.
  { split.
    - rewrite beforeCollision_player. now apply stepPlayer_inv.
    - rewrite beforeCollision_speed. now apply spawnStep_speed_inv.
    - rewrite beforeCollision_scoreRef. lia.
    - rewrite beforeCollision_scoreRef, beforeCollision_bestRef.
      destruct (crossings _ _ _) as [|m]; simpl.
      + now rewrite Z.add_0_r.
      + apply JsNum_max_r. }
  rewrite updateGame_eq. destruct (hit _); [|exact Hbc].
  destruct Hbc as [Hp' Hs' H0' Hb']. split.
  - now rewrite endGame_player.
  - now rewrite endGame_speed.
  - now rewrite endGame_scoreRef.
  - rewrite endGame_scoreRef.
    eapply JsNum_le_trans; [exact Hb'|apply endGame_bestRef_le].
Qed.

Lemma loop_inv (time : Q) (rnd : Rand) (g : Game) : Inv g -> Inv (loop time rnd g).
Proof.
  intros H. unfold loop. simpl.
  destruct (GameStatus_eqb (statusRef g) running).
  - apply updateGame_inv. destruct H; split; auto.
  - destruct H; split; auto.
Qed.

Lemma step_inv (ev : Event) (g : Game) : Inv g -> Inv (step ev g).
Proof.
  destruct ev; simpl; auto using loop_inv, jump_inv, handlePointerDown_inv.
Qed.

Lemma reachable_inv (g : Game) : reachable g -> Inv g.
Proof.
  induction 1 as [storage now | ev g _ IH _]; auto using mount_inv, step_inv.
Qed.

Lemma reachable_run (evs : list Event) (g : Game) :
  reachable g -> Forall validEvent evs -> reachable (run evs g).
Proof.
  intros Hg Hevs. revert g Hg.
  induction Hevs as [|ev evs Hev _ IH]; intros g Hg; simpl; [exact Hg|].
  apply IH. now apply reachable_step.
Qed.

Lemma halfRand_valid : validRand halfRand.
Proof. repeat split; simpl; lra. Qed.

Ltac valid_events :=
  repeat first [apply List.Forall_nil | apply List.Forall_cons];
  first [exact I | exact halfRand_valid].

(** ** Geometry of one tick *)

(** The distance covered in one tick, at a speed within the cap. *)
Lemma travel_bound (s delta : Q) :
  0 <= s -> s <= 360 -> delta <= 35 # 1000 -> s * delta <= 126 # 10.
Proof.
  intros H0 H1 Hd. destruct (Qlt_le_dec delta 0) as [Hn | Hp]; nra.
Qed.

Lemma newObstacle_width (rnd : Rand) :
  validRand rnd ->
  44 <= Obstacle.width (newObstacle rnd) /\ Obstacle.width (newObstacle rnd) < 76.
Proof. intros ([H0 H1] & _). simpl. lra. Qed.

(** A spawned obstacle that has moved at most 12.6 units is right of the
    hitbox of a player at x = 74 and has not crossed it. *)
Lemma newObstacle_clear (rnd : Rand) (dx : Q) (p : Player.t) :
  validRand rnd -> dx <= 126 # 10 -> Player.x p = 74 ->
  crossed dx 74 (newObstacle rnd) = false
  /\ overlaps p (moved dx 74 (newObstacle rnd)) = false.
Proof.
  intros Hr Hdx Hx. destruct (newObstacle_width rnd Hr) as [Hw _].
  simpl in Hw. unfold WORLD_WIDTH. split.
  - unfold crossed; simpl. apply Qltb_ge. unfold WORLD_WIDTH. lra.
  - unfold overlaps; simpl. rewrite Hx.
    replace (Qltb _ (74 + PLAYER_SIZE - 6)) with false; [reflexivity|].
    symmetry. apply Qltb_ge. unfold WORLD_WIDTH, PLAYER_SIZE. lra.
Qed.

(** An obstacle that is scored in a tick lies wholly left of the hitbox. *)
Lemma crossed_clear (dx : Q) (p : Player.t) (o : Obstacle.t) :
  crossed dx (Player.x p) o = true -> overlaps p (moved dx (Player.x p) o) = false.
Proof.
  unfold crossed, overlaps; simpl. intros H.
  apply andb_true_iff in H as [_ H]. apply Qltb_lt in H.
  replace (Qltb (Player.x p + 6) _) with false;
    [now rewrite andb_false_r|].
  symmetry. apply Qltb_ge. lra.
Qed.

Lemma hit_false (p : Player.t) (obs : list Obstacle.t) :
  Forall (fun o => overlaps p o = false) obs ->
  existsb (overlaps p) (List.filter onScreen obs) = false.
Proof.
  induction 1 as [|o obs Ho _ IH]; simpl; [reflexivity|].
  destruct (onScreen o); simpl; [now rewrite Ho|exact IH].
Qed.

Lemma beforeCollision_obstacles (delta : Q) (rnd : Rand) (g : Game) :
  let g2 := spawnStep delta rnd (set_player (stepPlayer delta (player g)) g) in
  obstacles (beforeCollision delta rnd g) =
  List.filter onScreen
    (map (moved (speed g2 * delta) (Player.x (player g))) (obstacles g2)).
Proof.
  cbv zeta. unfold beforeCollision, cull; simpl.
  rewrite moveAndScore_obstacles, spawnStep_player. simpl.
  destruct (stepPlayer_cases delta (player g)) as [[_ ->] | [_ ->]]; reflexivity.
Qed.

Lemma updateGame_scoreRef (delta : Q) (rnd : Rand) (g : Game) :
  let g2 := spawnStep delta rnd (set_player (stepPlayer delta (player g)) g) in
  scoreRef (updateGame delta rnd g) =
  (scoreRef g +
   Z.of_nat (crossings (speed g2 * delta) (Player.x (player g)) (obstacles g2)))%Z.
Proof.
  cbv zeta. rewrite updateGame_eq.
  destruct (hit _); rewrite ?endGame_scoreRef; apply beforeCollision_scoreRef.
Qed.

Lemma updateGame_no_hit (delta : Q) (rnd : Rand) (g : Game) :
  hit (beforeCollision delta rnd g) = false ->
  updateGame delta rnd g = beforeCollision delta rnd g.
Proof. intros H. now rewrite updateGame_eq, H. Qed.

Lemma updateGame_hit (delta : Q) (rnd : Rand) (g : Game) :
  hit (beforeCollision delta rnd g) = true ->
  updateGame delta rnd g = endGame (beforeCollision delta rnd g).
Proof. intros H. now rewrite updateGame_eq, H. Qed.

(** The list a tick keeps: the obstacles as the [forEach] callback left
    them, less those off the screen. *)
Lemma updateGame_obstacles (delta : Q) (rnd : Rand) (g : Game) :
  let g2 := spawnStep delta rnd (set_player (stepPlayer delta (player g)) g) in
  obstacles (updateGame delta rnd g) =
  List.filter onScreen
    (map (moved (speed g2 * delta) (Player.x (player g))) (obstacles g2)).
Proof.
  cbv zeta. rewrite updateGame_eq.
  destruct (hit _); rewrite ?endGame_obstacles; apply beforeCollision_obstacles.
Qed.

(** ** The claims *)

(** *** C1: a single obstacle injected at x = 0 *)

Lemma injected_tick (delta : Q) (rnd : Rand) (g : Game) (p : bool) :
  Player.x (player g) = 74 ->
  obstacles g = [originObstacle p] ->
  0 <= speed g -> speed g <= 360 ->
  0 <= delta -> delta <= 35 # 1000 -> validRand rnd ->
  let g2 := spawnStep delta rnd (set_player (stepPlayer delta (player g)) g) in
  let dx := speed g2 * delta in
  0 <= dx /\ dx <= 126 # 10
  /\ (obstacles g2 = [originObstacle p]
      \/ obstacles g2 = [originObstacle p; newObstacle rnd]).
Proof.
  intros Hx Hobs Hs0 Hs1 Hd0 Hd1 Hr. cbv zeta.
  destruct (spawnStep_cases delta rnd
              (set_player (stepPlayer delta (player g)) g)) as [[_ ->] | [_ ->]];
    simpl; rewrite ?Hobs.
  - assert (0 <= Qmin 360 (speed g + 3)) by (apply Q.min_glb; lra).
    assert (Qmin 360 (speed g + 3) <= 360) by apply Q.le_min_l.
    repeat split; [nra | now apply travel_bound | now right].
  - repeat split; [nra | now apply travel_bound | now left].
Qed.

Lemma originObstacle_moved (dx : Q) (p : bool) (pl : Player.t) :
  0 <= dx -> Player.x pl = 74 ->
  crossed dx 74 (originObstacle p) = negb p
  /\ overlaps pl (moved dx 74 (originObstacle p)) = false.
Proof.
  intros Hdx Hx. split.
  - unfold crossed; simpl. replace (Qltb _ 74) with true;
      [now rewrite andb_true_r|].
    symmetry. apply Qltb_lt. lra.
  - unfold overlaps; simpl. rewrite Hx.
    replace (Qltb (74 + 6) _) with false; [now rewrite andb_false_r|].
    symmetry. apply Qltb_ge. lra.
Qed.

(** C1, as the code has it: with one obstacle at x = 0 of width 50 and
    height 80, the player at rest at x = 74 and a tick of 0 to 0.035
    seconds, the overlap test finds no collision (the obstacle's right edge,
    at most 50, is left of the hitbox, which starts at 80), the status stays
    running, and an obstacle not yet marked passed is scored: the score
    grows by 1. *)
Theorem origin_obstacle_is_cleared
    (delta : Q) (rnd : Rand) (g : Game) (p : bool) :
  statusRef g = running ->
  player g = playerAtRest ->
  obstacles g = [originObstacle p] ->
  0 <= speed g -> speed g <= 360 ->
  0 <= delta -> delta <= 35 # 1000 -> validRand rnd ->
  hit g = false
  /\ hit (beforeCollision delta rnd g) = false
  /\ statusRef (updateGame delta rnd g) = running
  /\ scoreRef (updateGame delta rnd g) =
     (scoreRef g + (if p then 0 else 1))%Z.
Proof.
  intros Hst Hpl Hobs Hs0 Hs1 Hd0 Hd1 Hr.
  assert (Player.x (player g) = 74) as Hx by now rewrite Hpl.
  destruct (injected_tick delta rnd g p Hx Hobs Hs0 Hs1 Hd0 Hd1 Hr)
    as (Hdx0 & Hdx1 & Hcases).
  assert (Player.x (stepPlayer delta (player g)) = 74) as Hx'
    by (destruct (stepPlayer_cases delta (player g)) as [[_ ->] | [_ ->]];
        exact Hx).
  assert (hit (beforeCollision delta rnd g) = false) as Hno.
  { unfold hit. rewrite beforeCollision_obstacles, beforeCollision_player, Hx.
    apply hit_false.
    destruct Hcases as [-> | ->]; repeat constructor;
      try (now apply originObstacle_moved);
      now apply newObstacle_clear. }
  split; [|split; [exact Hno|split]].
  - unfold hit. rewrite Hobs, Hpl. reflexivity.
  - rewrite (updateGame_no_hit _ _ _ Hno), beforeCollision_statusRef. exact Hst.
  - rewrite updateGame_scoreRef, Hx. f_equal.
    destruct Hcases as [-> | ->]; unfold crossings; simpl;
      rewrite (proj1 (originObstacle_moved _ p _ Hdx0 Hx'));
      rewrite ?(proj1 (newObstacle_clear rnd _ _ Hr Hdx1 Hx'));
      destruct p; reflexivity.
Qed.

Lemma origin_obstacle_is_cleared_witness :
  hit injectedRun = false
  /\ hit (beforeCollision (16 # 1000) halfRand injectedRun) = false
  /\ statusRef (updateGame (16 # 1000) halfRand injectedRun) = running
  /\ scoreRef (updateGame (16 # 1000) halfRand injectedRun) =
     (scoreRef injectedRun + 1)%Z.
Proof.
  apply (origin_obstacle_is_cleared (16 # 1000) halfRand injectedRun false);
    try reflexivity; try (simpl; lra); apply halfRand_valid.
Defined.

(** C1 as stated fails: in that scenario no collision is reported, the
    status is still running after the tick and the score has changed. *)
Lemma origin_obstacle_counterexample :
  let g' := updateGame (16 # 1000) halfRand injectedRun in
  statusRef injectedRun = running
  /\ player injectedRun = playerAtRest
  /\ obstacles injectedRun = [originObstacle false]
  /\ overlaps (player injectedRun) (originObstacle false) = false
  /\ hit (beforeCollision (16 # 1000) halfRand injectedRun) = false
  /\ statusRef g' <> over
  /\ scoreRef g' <> scoreRef injectedRun.
Proof. vm_compute. repeat split; discriminate. Qed.

(** *** C2: the ground clamp and the grounded flag *)

Lemma afterFirstJump_reachable : reachable afterFirstJump.
Proof.
  unfold afterFirstJump. apply reachable_run; [apply reachable_mount|].
  valid_events.
Qed.

(** C2 as stated fails: a reachable state in which the player's y is the
    resting y and the grounded flag is false. *)
Lemma grounded_iff_counterexample :
  reachable afterFirstJump
  /\ Player.y (player afterFirstJump) == restY
  /\ Player.onGround (player afterFirstJump) = false
  /\ ~ (Player.onGround (player afterFirstJump) = true
        <-> Player.y (player afterFirstJump) == restY).
Proof.
  split; [|split; [|split]].
  - exact afterFirstJump_reachable.
  - reflexivity.
  - reflexivity.
  - intros [_ H]. discriminate H. reflexivity.
Qed.

Lemma stepPlayer_grounded_iff (delta : Q) (p : Player.t) :
  Player.onGround (stepPlayer delta p) = true
  <-> Player.y (stepPlayer delta p) == restY.
Proof.
  destruct (stepPlayer_cases delta p) as [[H ->] | [H ->]]; simpl.
  - split; intros _; reflexivity.
  - split; [discriminate|]. intros E. rewrite E in H. now apply Qlt_irrefl in H.
Qed.

(** C2, as the code has it: in every reachable state the player's y is at
    most the resting y (the player never penetrates the ground) and a
    grounded player is at the resting y; every operation (a frame, a jump,
    a pointer press) keeps both.  The converse holds after each physics
    tick, where grounded is true exactly when y is the resting y; a jump
    keeps y and clears the flag. *)
Theorem ground_clamp_invariant (g : Game) :
  reachable g ->
  (Player.y (player g) <= restY
   /\ (Player.onGround (player g) = true -> Player.y (player g) == restY))
  /\ (forall ev : Event, validEvent ev ->
        Player.y (player (step ev g)) <= restY
        /\ (Player.onGround (player (step ev g)) = true ->
            Player.y (player (step ev g)) == restY))
  /\ (forall (delta : Q) (rnd : Rand),
        Player.onGround (player (updateGame delta rnd g)) = true
        <-> Player.y (player (updateGame delta rnd g)) == restY)
  /\ Player.y (player (jump g)) = Player.y (player g)
  /\ (statusRef g = running -> Player.onGround (player (jump g)) = false).
Proof.
  intros Hg.
  assert (forall g0, reachable g0 ->
            Player.y (player g0) <= restY
            /\ (Player.onGround (player g0) = true ->
                Player.y (player g0) == restY)) as Hinv.
  { intros g0 H0. destruct (reachable_inv g0 H0) as [(_ & Hy & Hgr) _ _ _].
    split; [exact Hy|]. intros E. rewrite (Hgr E). reflexivity. }
  split; [now apply Hinv|]. split; [|split; [|split]].
  - intros ev Hev. apply Hinv. now apply reachable_step.
  - intros delta rnd. rewrite updateGame_player. apply stepPlayer_grounded_iff.
  - destruct (jump_cases g) as [(_ & _ & ->) | (_ & ->)]; reflexivity.
  - intros Hr. destruct (jump_cases g) as [(_ & _ & ->) | ([Hn | Hf] & ->)];
      [reflexivity | congruence | exact Hf].
Qed.

Lemma ground_clamp_invariant_witness :
  Player.y (player afterFirstJump) <= restY
  /\ (Player.onGround (player afterFirstJump) = true ->
      Player.y (player afterFirstJump) == restY).
Proof.
  exact (proj1 (ground_clamp_invariant afterFirstJump afterFirstJump_reachable)).
Defined.

(** *** C3: scoring comes before the collision test *)

Lemma crossings_pos (dx px : Q) (o : Obstacle.t) (obs : list Obstacle.t) :
  In o obs -> crossed dx px o = true -> (1 <= crossings dx px obs)%nat.
Proof.
  intros Hin Hc. unfold crossings.
  assert (In o (List.filter (crossed dx px) obs)) as H
    by (apply List.filter_In; auto).
  destruct (List.filter (crossed dx px) obs); [destruct H | simpl; lia].
Qed.

Lemma endGame_statusRef (g : Game) :
  statusRef g = running -> statusRef (endGame g) = over.
Proof.
  intros Hr. destruct (endGame_cases g) as [[Hn _] | [_ ->]]; [congruence|].
  now destruct (updateBest_untouched (scoreRef g) (setStatusSafe over g))
    as (-> & _).
Qed.

(** C3: when, in one tick of a running game, some obstacle is scored and a
    collision ends the run, the final state has status over, the score
    carries every increment of that tick (at least 1), and the best score
    is the larger of the old best and that final score. *)
Theorem scoring_precedes_collision
    (delta : Q) (rnd : Rand) (g : Game) (o : Obstacle.t) :
  let g2 := spawnStep delta rnd (set_player (stepPlayer delta (player g)) g) in
  let dx := speed g2 * delta in
  let px := Player.x (player g) in
  statusRef g = running ->
  In o (obstacles g2) -> crossed dx px o = true ->
  hit (beforeCollision delta rnd g) = true ->
  statusRef (updateGame delta rnd g) = over
  /\ scoreRef (updateGame delta rnd g) =
     (scoreRef g + Z.of_nat (crossings dx px (obstacles g2)))%Z
  /\ (scoreRef g + 1 <= scoreRef (updateGame delta rnd g))%Z
  /\ bestRef (updateGame delta rnd g) =
     JsNum.max (bestRef g) (JsNum.Fin (scoreRef (updateGame delta rnd g))).
Proof.
  intros g2 dx px Hst Hin Hc Hhit.
  pose proof (crossings_pos dx px o (obstacles g2) Hin Hc) as Hn.
  pose proof (updateGame_scoreRef delta rnd g) as Hsc. cbv zeta in Hsc.
  fold g2 dx px in Hsc.
  split; [|split; [exact Hsc|split; [lia|]]].
  - rewrite (updateGame_hit _ _ _ Hhit). apply endGame_statusRef.
    now rewrite beforeCollision_statusRef.
  - rewrite Hsc. rewrite (updateGame_hit _ _ _ Hhit), endGame_bestRef
      by now rewrite beforeCollision_statusRef.
    pose proof (beforeCollision_scoreRef delta rnd g) as Hs2.
    pose proof (beforeCollision_bestRef delta rnd g) as Hb2.
    cbv zeta in Hs2, Hb2. fold g2 dx px in Hs2, Hb2. rewrite Hs2, Hb2.
    destruct (crossings dx px (obstacles g2)) as [|m]; simpl; [lia|].
    apply JsNum_max_assoc_Fin. lia.
Qed.

Lemma scoring_precedes_collision_witness :
  statusRef (updateGame (16 # 1000) halfRand closePair) = over
  /\ scoreRef (updateGame (16 # 1000) halfRand closePair) = 1%Z
  /\ bestRef (updateGame (16 # 1000) halfRand closePair) = JsNum.Fin 1.
Proof.
  destruct (scoring_precedes_collision (16 # 1000) halfRand closePair
              (originObstacle false)) as (H1 & H2 & _ & H4);
    [reflexivity | left; reflexivity | reflexivity | reflexivity |].
  split; [exact H1|]. split; [rewrite H2 | rewrite H4, H2]; reflexivity.
Defined.

(** *** C4: one point per obstacle, once *)

Lemma crossed_iff (dx px : Q) (o : Obstacle.t) :
  crossed dx px o = true
  <-> Obstacle.passed o = false /\ Obstacle.x o - dx + Obstacle.width o < px.
Proof.
  unfold crossed. rewrite andb_true_iff, negb_true_iff, Qltb_lt. reflexivity.
Qed.

Lemma scoreObstacle_score (delta : Q) (o : Obstacle.t) (g : Game) :
  let dx := speed g * delta in
  let px := Player.x (player g) in
  scoreRef (scoreObstacle delta o g).2 =
    (scoreRef g + (if crossed dx px o then 1 else 0))%Z
  /\ Obstacle.passed (scoreObstacle delta o g).1 =
     (Obstacle.passed o || crossed dx px o)%bool.
Proof.
  destruct (scoreObstacle_cases delta o g) as [[Hc ->] | [Hc ->]];
    simpl in *; rewrite Hc; rewrite ?updateBest_scoreRef; simpl; split;
    auto; lia.
Qed.

Lemma scoredTimes_passed (o : Obstacle.t) (ticks : list (Q * Game)) :
  Obstacle.passed o = true -> scoredTimes o ticks = 0%Z.
Proof.
  revert o. induction ticks as [|[delta g] rest IH]; intros o Hp; simpl;
    [reflexivity|].
  destruct (scoreObstacle_score delta o g) as [Hs Hpass].
  destruct (scoreObstacle delta o g) as [o' g']; simpl in *.
  unfold crossed in Hs, Hpass. rewrite Hp in Hs, Hpass. simpl in *.
  rewrite (IH o' Hpass). lia.
Qed.

Lemma scoredTimes_bounds (o : Obstacle.t) (ticks : list (Q * Game)) :
  (0 <= scoredTimes o ticks <= 1)%Z.
Proof.
  revert o. induction ticks as [|[delta g] rest IH]; intros o; simpl; [lia|].
  destruct (scoreObstacle_score delta o g) as [Hs Hpass].
  destruct (scoreObstacle delta o g) as [o' g'] eqn:E; simpl in *.
  destruct (crossed (speed g * delta) (Player.x (player g)) o).
  - rewrite orb_true_r in Hpass. rewrite (scoredTimes_passed o' rest Hpass). lia.
  - specialize (IH o'). lia.
Qed.

Lemma unpassed_cons (o : Obstacle.t) (obs : list Obstacle.t) :
  unpassed (o :: obs) =
  ((if Obstacle.passed o then 0 else 1) + unpassed obs)%nat.
Proof. unfold unpassed; simpl. destruct (Obstacle.passed o); reflexivity. Qed.

Lemma unpassed_app (obs obs' : list Obstacle.t) :
  unpassed (obs ++ obs') = (unpassed obs + unpassed obs')%nat.
Proof. unfold unpassed. now rewrite List.filter_app, length_app. Qed.

(** Each obstacle that the callback scores leaves the unpassed ones. *)
Lemma moved_unpassed (dx px : Q) (obs : list Obstacle.t) :
  (unpassed (map (moved dx px) obs) + crossings dx px obs)%nat = unpassed obs.
Proof.
  induction obs as [|o obs IH]; [reflexivity|].
  simpl map. rewrite !unpassed_cons, crossings_cons.
  unfold moved at 1. simpl Obstacle.passed.
  destruct (Obstacle.passed o) eqn:Ep; unfold crossed; rewrite Ep; simpl;
    [lia|].
  destruct (Qltb _ px); simpl; lia.
Qed.

(** An obstacle that leaves the screen has been passed, the player being
    right of the culling line. *)
Lemma cull_unpassed (dx px : Q) (obs : list Obstacle.t) :
  -20 < px ->
  unpassed (List.filter onScreen (map (moved dx px) obs))
  = unpassed (map (moved dx px) obs).
Proof.
  intros Hpx. induction obs as [|o obs IH]; [reflexivity|].
  simpl map. simpl List.filter.
  destruct (onScreen (moved dx px o)) eqn:E.
  - now rewrite !unpassed_cons, IH.
  - rewrite unpassed_cons, IH.
    replace (Obstacle.passed (moved dx px o)) with true; [reflexivity|].
    symmetry. unfold onScreen in E. apply Qltb_ge in E. simpl in *.
    unfold crossed. destruct (Obstacle.passed o); [reflexivity|]. simpl.
    apply Qltb_lt. lra.
Qed.

Lemma spawnStep_unpassed (delta : Q) (rnd : Rand) (g : Game) :
  unpassed (obstacles (spawnStep delta rnd g))
  = (unpassed (obstacles g)
     + (if Qleb (spawnTimer g - delta) 0 then 1 else 0))%nat.
Proof.
  destruct (spawnStep_cases delta rnd g) as [[H ->] | [H ->]]; simpl.
  - rewrite unpassed_app. apply Qleb_le in H. now rewrite H.
  - apply Qleb_gt in H. rewrite H. lia.
Qed.

Lemma updateGame_account (delta : Q) (rnd : Rand) (g : Game) :
  -20 < Player.x (player g) ->
  (scoreRef (updateGame delta rnd g)
   + Z.of_nat (unpassed (obstacles (updateGame delta rnd g))))%Z
  = (scoreRef g + Z.of_nat (unpassed (obstacles g))
     + Z.of_nat (if Qleb (spawnTimer g - delta) 0 then 1 else 0))%Z.
Proof.
  intros Hpx. rewrite updateGame_scoreRef, updateGame_obstacles.
  set (g2 := spawnStep delta rnd (set_player (stepPlayer delta (player g)) g)).
  rewrite (cull_unpassed _ _ _ Hpx).
  pose proof (moved_unpassed (speed g2 * delta) (Player.x (player g))
                (obstacles g2)) as Hm.
  pose proof (spawnStep_unpassed delta rnd
                (set_player (stepPlayer delta (player g)) g)) as Hs.
  fold g2 in Hs. simpl in Hs. lia.
Qed.

Lemma updateGame_player_x (delta : Q) (rnd : Rand) (g : Game) :
  Player.x (player (updateGame delta rnd g)) = Player.x (player g).
Proof.
  rewrite updateGame_player.
  destruct (stepPlayer_cases delta (player g)) as [[_ ->] | [_ ->]]; reflexivity.
Qed.

Lemma step_account (ev : Event) (g : Game) :
  -20 < Player.x (player g) ->
  match ev with PointerDown _ => statusRef g <> over | _ => True end ->
  -20 < Player.x (player (step ev g))
  /\ (scoreRef (step ev g) + Z.of_nat (unpassed (obstacles (step ev g))))%Z
     = (scoreRef g + Z.of_nat (unpassed (obstacles g))
        + Z.of_nat (spawnsAt ev g))%Z.
Proof.
  intros Hpx Hev. destruct ev as [time rnd | | now]; simpl.
  - unfold loop. simpl. destruct (GameStatus_eqb (statusRef g) running).
    + split; [now rewrite updateGame_player_x|].
      now rewrite (updateGame_account _ _ (set_lastTime time g)).
    + simpl. split; [exact Hpx | lia].
  - destruct (jump_cases g) as [(_ & _ & ->) | (_ & ->)]; simpl;
      split; auto; lia.
  - unfold handlePointerDown, startGame.
    destruct (statusRef g) eqn:E; simpl; rewrite ?E; simpl;
      [split; auto; lia | | congruence].
    destruct (jump_cases g) as [(_ & _ & ->) | (_ & ->)]; simpl;
      split; auto; lia.
Qed.

Lemma run_account (evs : list Event) (g : Game) :
  -20 < Player.x (player g) -> noRestart evs g ->
  (scoreRef (run evs g) + Z.of_nat (unpassed (obstacles (run evs g))))%Z
  = (scoreRef g + Z.of_nat (unpassed (obstacles g))
     + Z.of_nat (spawnCount evs g))%Z.
Proof.
  revert g. induction evs as [|ev evs IH]; intros g Hpx Hno; simpl.
  - lia.
  - destruct Hno as [Hev Hno].
    destruct (step_account ev g Hpx Hev) as [Hpx' Hacc].
    rewrite (IH (step ev g) Hpx' Hno). lia.
Qed.

(** C4: the [forEach] callback adds exactly 1 to the score when the
    obstacle is not yet passed and its right edge, after the move, is left
    of the player's x, and marks it passed; otherwise it leaves the score
    and never clears the flag.  A tick adds the number of such obstacles
    and keeps the obstacles as the callback left them, flags included,
    less those off the screen.  So over a whole run (any events, no press
    on a game that is over; the player right of the culling line, as in
    every reachable state) the score and the number of obstacles not yet
    passed add up to what they were plus the number of obstacles spawned:
    every obstacle is worth one point, once, when it is marked passed.
    Handed to the callback over any sequence of ticks one obstacle adds at
    most 1 in total, and nothing once it is passed.  In every reachable
    state the score is a non-negative integer. *)
Theorem score_once_per_obstacle :
  (forall (delta : Q) (o : Obstacle.t) (g : Game),
     let right := Obstacle.x o - speed g * delta + Obstacle.width o in
     let o' := (scoreObstacle delta o g).1 in
     let g' := (scoreObstacle delta o g).2 in
     (Obstacle.passed o = false /\ right < Player.x (player g) ->
      scoreRef g' = (scoreRef g + 1)%Z /\ Obstacle.passed o' = true)
     /\ (~ (Obstacle.passed o = false /\ right < Player.x (player g)) ->
         scoreRef g' = scoreRef g /\ Obstacle.passed o' = Obstacle.passed o))
  /\ (forall (delta : Q) (rnd : Rand) (g : Game),
        let g2 := spawnStep delta rnd
                    (set_player (stepPlayer delta (player g)) g) in
        scoreRef (updateGame delta rnd g) =
        (scoreRef g +
         Z.of_nat (crossings (speed g2 * delta) (Player.x (player g))
                             (obstacles g2)))%Z)
  /\ (forall (o : Obstacle.t) (ticks : list (Q * Game)),
        (0 <= scoredTimes o ticks <= 1)%Z
        /\ (Obstacle.passed o = true -> scoredTimes o ticks = 0%Z))
  /\ (forall g : Game, reachable g -> (0 <= scoreRef g)%Z)
  /\ (forall (delta : Q) (rnd : Rand) (g : Game),
        let g2 := spawnStep delta rnd
                    (set_player (stepPlayer delta (player g)) g) in
        obstacles (updateGame delta rnd g) =
        List.filter onScreen
          (map (moved (speed g2 * delta) (Player.x (player g)))
               (obstacles g2)))
  /\ (forall (evs : list Event) (g : Game),
        -20 < Player.x (player g) -> noRestart evs g ->
        (scoreRef (run evs g)
         + Z.of_nat (unpassed (obstacles (run evs g))))%Z
        = (scoreRef g + Z.of_nat (unpassed (obstacles g))
           + Z.of_nat (spawnCount evs g))%Z)
  /\ (forall g : Game, reachable g -> -20 < Player.x (player g)).
Proof.
  split; [|split; [|split; [|split; [|split; [|split]]]]].
  - intros delta o g right o' g'. subst right o' g'.
    destruct (scoreObstacle_score delta o g) as [Hs Hp].
    pose proof (crossed_iff (speed g * delta) (Player.x (player g)) o) as Hc.
    destruct (crossed (speed g * delta) (Player.x (player g)) o).
    + split; [intros _; split; [exact Hs | rewrite Hp; apply orb_true_r]|].
      intros Hn. exfalso. apply Hn, Hc. reflexivity.
    + split.
      * intros H. apply Hc in H. discriminate.
      * intros _. split; [rewrite Hs; lia | rewrite Hp; apply orb_false_r].
  - intros. apply updateGame_scoreRef.
  - intros o ticks. split;
      [apply scoredTimes_bounds | apply scoredTimes_passed].
  - intros g Hg. apply reachable_inv, Hg.
  - intros. apply updateGame_obstacles.
  - intros evs g. apply run_account.
  - intros g Hg. destruct (reachable_inv g Hg) as [(Hx & _) _ _ _].
    rewrite Hx. reflexivity.
Qed.

Lemma score_once_per_obstacle_witness :
  (let o := originObstacle false in
   let g := injectedRun in
   scoreRef (scoreObstacle (16 # 1000) o g).2 = (scoreRef g + 1)%Z
   /\ Obstacle.passed (scoreObstacle (16 # 1000) o g).1 = true)
  /\ (scoreRef (run [Frame 16 halfRand; Frame 32 halfRand] injectedRun)
      + Z.of_nat (unpassed (obstacles
                   (run [Frame 16 halfRand; Frame 32 halfRand] injectedRun))))%Z
     = (scoreRef injectedRun + Z.of_nat (unpassed (obstacles injectedRun))
        + Z.of_nat (spawnCount [Frame 16 halfRand; Frame 32 halfRand]
                               injectedRun))%Z.
Proof.
  split.
  - apply (proj1 score_once_per_obstacle (16 # 1000) (originObstacle false)
                 injectedRun).
    split; reflexivity.
  - apply (proj1 (proj2 (proj2 (proj2 (proj2 (proj2 score_once_per_obstacle)))))
                 [Frame 16 halfRand; Frame 32 halfRand] injectedRun).
    + reflexivity.
    + simpl. auto.
Defined.

(** *** C5: the best score never decreases *)

Lemma keeps_refl (g : Game) : keeps g g.
Proof. split; [apply JsNum_le_refl | reflexivity]. Qed.

Lemma keeps_trans (g1 g2 g3 : Game) : keeps g1 g2 -> keeps g2 g3 -> keeps g1 g3.
Proof.
  intros [L1 S1] [L2 S2]. split; [eapply JsNum_le_trans; eassumption|].
  intros E. rewrite E in L2.
  pose proof (JsNum_le_antisym _ _ L2 L1) as E2.
  rewrite S2, S1; congruence.
Qed.

Lemma keeps_same (g g' : Game) :
  bestRef g' = bestRef g -> localStorage g' = localStorage g -> keeps g g'.
Proof. intros Hb Hs. split; [rewrite Hb; apply JsNum_le_refl | auto]. Qed.

Lemma updateBest_keeps (value : Z) (g : Game) : keeps g (updateBest value g).
Proof.
  destruct (updateBest_cases value g) as [[_ ->] | [H ->]];
    [apply keeps_refl|].
  split; simpl; [now apply JsNum_lt_le|].
  intros E. rewrite E in H. now apply JsNum_lt_irrefl in H.
Qed.

Lemma forEachObstacle_keeps (delta : Q) (obs : list Obstacle.t) (g : Game) :
  keeps g (forEachObstacle delta obs g).2.
Proof.
  revert g. induction obs as [|o rest IH]; intros g.
  - apply keeps_refl.
  - rewrite forEachObstacle_cons; simpl.
    eapply keeps_trans; [|apply IH].
    destruct (scoreObstacle_cases delta o g) as [[_ ->] | [_ ->]]; simpl;
      [|apply keeps_refl].
    eapply keeps_trans; [|apply updateBest_keeps]. now apply keeps_same.
Qed.

Lemma endGame_keeps (g : Game) : keeps g (endGame g).
Proof.
  destruct (endGame_cases g) as [[_ ->] | [_ ->]]; [apply keeps_refl|].
  eapply keeps_trans; [|apply updateBest_keeps]. now apply keeps_same.
Qed.

Lemma updateGame_keeps (delta : Q) (rnd : Rand) (g : Game) :
  keeps g (updateGame delta rnd g).
Proof.
  assert (keeps g (beforeCollision delta rnd g)) as H.
  { unfold beforeCollision, cull. rewrite moveAndScore_eq.
    set (g2 := spawnStep delta rnd _).
    apply keeps_trans with g2.
    - subst g2. destruct (spawnStep_cases delta rnd
        (set_player (stepPlayer delta (player g)) g)) as [[_ ->] | [_ ->]];
        now apply keeps_same.
    - eapply keeps_trans; [apply (forEachObstacle_keeps delta (obstacles g2))|].
      now apply keeps_same. }
  rewrite updateGame_eq. destruct (hit _); [|exact H].
  eapply keeps_trans; [exact H | apply endGame_keeps].
Qed.

Lemma step_keeps (ev : Event) (g : Game) : keeps g (step ev g).
Proof.
  destruct ev as [time rnd | | now]; simpl.
  - unfold loop. simpl. destruct (GameStatus_eqb _ _).
    + eapply keeps_trans; [|apply updateGame_keeps]. now apply keeps_same.
    + now apply keeps_same.
  - destruct (jump_cases g) as [(_ & _ & ->) | (_ & ->)]; now apply keeps_same.
  - unfold handlePointerDown, startGame.
    destruct (GameStatus_eqb (statusRef g) ready).
    + destruct (GameStatus_eqb (statusRef g) running); now apply keeps_same.
    + destruct (GameStatus_eqb (statusRef g) over).
      * simpl. now apply keeps_same.
      * destruct (jump_cases g) as [(_ & _ & ->) | (_ & ->)];
          now apply keeps_same.
Qed.

Lemma run_keeps (evs : list Event) (g : Game) : keeps g (run evs g).
Proof.
  revert g. induction evs as [|ev evs IH]; intros g; simpl.
  - apply keeps_refl.
  - eapply keeps_trans; [apply step_keeps | apply IH].
Qed.

(** C5: over any sequence of events (frames, jumps, presses that start a
    run or reset after a game over) the best score does not decrease, and
    the stored value changes only when the best score grows.  [updateBest]
    with a value at most the current best changes nothing at all; with a
    larger value it sets the best score to it and stores its decimal
    string. *)
Theorem best_is_monotone :
  (forall (evs : list Event) (g : Game),
     (bestRef g <= bestRef (run evs g))%num
     /\ (localStorage (run evs g) <> localStorage g ->
         (bestRef g < bestRef (run evs g))%num))
  /\ (forall (g : Game), bestRef (prepareGame g) = bestRef g)
  /\ (forall (value : Z) (g : Game),
        (JsNum.Fin value <= bestRef g)%num -> updateBest value g = g)
  /\ (forall (value : Z) (g : Game),
        (bestRef g < JsNum.Fin value)%num ->
        bestRef (updateBest value g) = JsNum.Fin value
        /\ localStorage (updateBest value g) =
           <[BEST_KEY := numberToString value]> (localStorage g)).
Proof.
  split; [|split; [|split]].
  - intros evs g. destruct (run_keeps evs g) as [Hle Hst]. split; [exact Hle|].
    intros Hne.
    destruct (JsNum_eq_dec (bestRef (run evs g)) (bestRef g)) as [E|E].
    + exfalso. apply Hne, Hst, E.
    + apply JsNum_le_neq_lt; [exact Hle | congruence].
  - reflexivity.
  - intros value g H.
    destruct (updateBest_cases value g) as [[_ E] | [Hlt _]]; [exact E|].
    exfalso. eapply JsNum_lt_irrefl, JsNum_le_lt_trans; eassumption.
  - intros value g H.
    destruct (updateBest_cases value g) as [[Hle _] | [_ ->]];
      [|split; reflexivity].
    exfalso. eapply JsNum_lt_irrefl, JsNum_le_lt_trans; eassumption.
Qed.

Lemma best_is_monotone_witness :
  updateBest 3 (set_bestRef (JsNum.Fin 5) injectedRun)
  = set_bestRef (JsNum.Fin 5) injectedRun
  /\ bestRef (updateBest 7 (set_bestRef (JsNum.Fin 5) injectedRun))
     = JsNum.Fin 7.
Proof.
  split.
  - apply (proj1 (proj2 (proj2 best_is_monotone))). reflexivity.
  - apply (proj2 (proj2 (proj2 best_is_monotone)) 7%Z
             (set_bestRef (JsNum.Fin 5) injectedRun)).
    reflexivity.
Defined.

(** *** C6: the speed cap and the spawn interval *)

Lemma difficultyBoost_bounds (score : Z) :
  (0 <= score)%Z ->
  12 # 10 <= difficultyBoost score /\ difficultyBoost score <= 17 # 10.
Proof.
  intros H. unfold difficultyBoost. split; [|apply Q.le_min_r].
  apply Q.min_glb; [|lra].
  assert (0 <= inject_Z score) as Hq
    by (change 0 with (inject_Z 0); now rewrite <- Zle_Qle).
  nra.
Qed.

Lemma updateGame_speed (delta : Q) (rnd : Rand) (g : Game) :
  speed (updateGame delta rnd g) =
  speed (spawnStep delta rnd (set_player (stepPlayer delta (player g)) g)).
Proof.
  rewrite updateGame_eq. destruct (hit _); rewrite ?endGame_speed;
    apply beforeCollision_speed.
Qed.

Lemma updateGame_spawnTimer (delta : Q) (rnd : Rand) (g : Game) :
  spawnTimer (updateGame delta rnd g) =
  spawnTimer (spawnStep delta rnd (set_player (stepPlayer delta (player g)) g)).
Proof.
  rewrite updateGame_eq. destruct (hit _); rewrite ?endGame_spawnTimer;
    apply beforeCollision_spawnTimer.
Qed.

Lemma beforeFirstSpawn_reachable : reachable beforeFirstSpawn.
Proof.
  unfold beforeFirstSpawn. apply reachable_run; [apply reachable_mount|].
  simpl. valid_events.
Qed.

(** C6: in every reachable state the speed is at most 360.  A tick that
    spawns (the timer, less delta, is at most 0) sets the speed to
    [min 360 (speed + 3)]: 3 more while that stays within the cap, the cap
    otherwise, and never less than before.  It resets the timer to
    [0.8 / boost + random * 0.4], where the boost
    [min (1.2 + score * 0.015) 1.7] is at least 1.2 and at most 1.7, so the
    new timer is at least 0.8 / 1.7 = 8/17. *)
Theorem speed_is_capped (g : Game) :
  reachable g ->
  speed g <= 360
  /\ (forall (delta : Q) (rnd : Rand),
        validRand rnd -> spawnTimer g - delta <= 0 ->
        let g' := updateGame delta rnd g in
        let boost := difficultyBoost (scoreRef g) in
        speed g' = Qmin 360 (speed g + 3)
        /\ (speed g + 3 <= 360 -> speed g' == speed g + 3)
        /\ speed g <= speed g' /\ speed g' <= 360
        /\ spawnTimer g' = (8 # 10) / boost + rJitter rnd * (4 # 10)
        /\ 12 # 10 <= boost /\ boost <= 17 # 10
        /\ 8 # 17 <= spawnTimer g').
Proof.
  intros Hg. destruct (reachable_inv g Hg) as [_ [Hs0 Hs1] Hsc _].
  split; [exact Hs1|]. intros delta rnd Hr Hspawn. cbv zeta.
  rewrite updateGame_speed, updateGame_spawnTimer.
  destruct (spawnStep_cases delta rnd
              (set_player (stepPlayer delta (player g)) g))
    as [[_ ->] | [Hno _]]; simpl in *; [|lra].
  destruct (difficultyBoost_bounds (scoreRef g) Hsc) as [Hb0 Hb1].
  destruct Hr as (_ & _ & Hj0 & _).
  split; [reflexivity|]. split; [|split; [|split; [|split; [|split; [|split]]]]];
    auto.
  - intros Hle. apply Q.min_r. exact Hle.
  - apply Q.min_glb; lra.
  - apply Q.le_min_l.
  - assert (8 # 17 <= (8 # 10) / difficultyBoost (scoreRef g)) as Hdiv
      by (apply Qle_shift_div_l; lra).
    lra.
Qed.

Lemma speed_is_capped_witness :
  speed beforeFirstSpawn <= 360
  /\ speed (updateGame (35 # 1000) halfRand beforeFirstSpawn)
     = Qmin 360 (speed beforeFirstSpawn + 3)
  /\ 8 # 17 <= spawnTimer (updateGame (35 # 1000) halfRand beforeFirstSpawn).
Proof.
  destruct (speed_is_capped beforeFirstSpawn beforeFirstSpawn_reachable)
    as [H1 H2].
  split; [exact H1|].
  destruct (H2 (35 # 1000) halfRand halfRand_valid) as (E & _ & _ & _ & _ & _ & _ & T).
  - apply Qleb_le. vm_compute. reflexivity.
  - split; [exact E | exact T].
Defined.

(** *** C7: the physics tick *)



(** *** C8: the jump *)

(** C8: [jump] on a running game with a grounded player sets the vertical
    velocity to JUMP_VELOCITY and clears the flag, and changes nothing
    else; when the status is not running, or the player is airborne, the
    whole state is unchanged.  So a state that [jump] changes was running
    with a grounded player. *)
Theorem jump_needs_running_and_grounded (g : Game) :
  (statusRef g = running -> Player.onGround (player g) = true ->
   jump g = set_player (Player.mk (Player.x (player g)) (Player.y (player g))
                                  JUMP_VELOCITY false) g)
  /\ (statusRef g <> running -> jump g = g)
  /\ (Player.onGround (player g) = false -> jump g = g)
  /\ (jump g <> g ->
      statusRef g = running /\ Player.onGround (player g) = true).
Proof.
  destruct (jump_cases g) as [(Hr & Hg & E) | ([Hn | Hf] & E)].
  - repeat split; auto; intros; congruence.
  - repeat split; auto; intros; congruence.
  - repeat split; auto; intros; congruence.
Qed.

Lemma jump_needs_running_and_grounded_witness :
  jump injectedRun =
    set_player (Player.mk 74 restY JUMP_VELOCITY false) injectedRun
  /\ jump (mount ∅ 0) = mount ∅ 0
  /\ jump afterFirstJump = afterFirstJump.
Proof.
  split; [|split].
  - apply (proj1 (jump_needs_running_and_grounded injectedRun)); reflexivity.
  - apply (proj1 (proj2 (jump_needs_running_and_grounded (mount ∅ 0)))).
    discriminate.
  - apply (proj1 (proj2 (proj2 (jump_needs_running_and_grounded afterFirstJump)))).
    reflexivity.
Defined.

(** *** C9: reading the persisted best score *)

Ltac N_cases :=
  repeat match goal with
         | |- context [(?a <=? ?b)%N] => destruct (N.leb_spec a b)
         | |- context [(?a =? ?b)%N] => destruct (N.eqb_spec a b)
         end;
  simpl; try reflexivity; try discriminate; try lia.

Lemma isDigit_digitValue (c : N) :
  isDigit c = true -> digitValue c = Some (Z.of_N c - 48)%Z.
Proof. unfold isDigit, digitValue. now intros ->. Qed.

Lemma not_isDigit_digitValue (c : N) :
  isDigit c = false -> digitValue c = None.
Proof. unfold isDigit, digitValue. now intros ->. Qed.

Lemma isDigit_plain (c : N) :
  isDigit c = true ->
  isWhiteSpace c = false /\ (c =? 45)%N = false /\ (c =? 43)%N = false.
Proof.
  unfold isDigit. intros H. apply andb_true_iff in H as [H1 H2].
  apply N.leb_le in H1, H2. unfold isWhiteSpace. repeat split; N_cases.
Qed.

Lemma trimStart_app (ws s : jsString) :
  forallb isWhiteSpace ws = true -> trimStart (ws ++ s) = trimStart s.
Proof.
  induction ws as [|c ws IH]; simpl; [reflexivity|].
  intros H. apply andb_true_iff in H as [-> H]. now apply IH.
Qed.

Lemma digitsPrefix_stop (acc : Z) (rest : jsString) :
  startsWithDigit rest = false -> digitsPrefix acc rest = acc.
Proof.
  destruct rest as [|c rest]; simpl; [reflexivity|].
  intros H. now rewrite (not_isDigit_digitValue c H).
Qed.

Lemma digitsPrefix_app (acc : Z) (digits rest : jsString) :
  forallb isDigit digits = true -> startsWithDigit rest = false ->
  digitsPrefix acc (digits ++ rest) =
  fold_left (fun a c => (10 * a + (Z.of_N c - 48))%Z) digits acc.
Proof.
  revert acc. induction digits as [|c digits IH]; intros acc Hd Hr; simpl.
  - now apply digitsPrefix_stop.
  - simpl in Hd. apply andb_true_iff in Hd as [Hc Hd].
    rewrite (isDigit_digitValue c Hc). now apply IH.
Qed.

(** White space, one sign, digits and anything that does not go on with a
    digit: [parseInt] gives the Number value of the signed digits. *)
Lemma parseInt_number (ws sign digits rest : jsString) :
  forallb isWhiteSpace ws = true -> isSign sign = true ->
  forallb isDigit digits = true -> digits <> [] ->
  startsWithDigit rest = false ->
  parseInt (ws ++ sign ++ digits ++ rest)
  = Some (toNumber (signOf sign * decimalValue digits)).
Proof.
  intros Hws Hsign Hd Hne Hr. unfold parseInt. rewrite trimStart_app by exact Hws.
  destruct digits as [|d ds]; [congruence|].
  simpl in Hd. apply andb_true_iff in Hd as [Hd0 Hds].
  destruct (isDigit_plain d Hd0) as (Hw & Hm & Hp).
  assert (digitsPrefix 0 ((d :: ds) ++ rest) = decimalValue (d :: ds)) as Ev
    by (apply digitsPrefix_app; [simpl; now rewrite Hd0|exact Hr]).
  destruct sign as [|c [|c' sign]]; simpl in Hsign; [| |discriminate].
  - simpl app. simpl trimStart. rewrite Hw, Hm, Hp.
    change (d :: ds ++ rest) with ((d :: ds) ++ rest). rewrite Ev.
    simpl app. now rewrite (isDigit_digitValue d Hd0).
  - apply orb_true_iff in Hsign.
    assert (c = 43%N \/ c = 45%N) as Hc
      by (destruct Hsign as [H | H]; apply N.eqb_eq in H; auto).
    assert (isWhiteSpace c = false) as Hcw
      by (destruct Hc as [-> | ->]; reflexivity).
    simpl app. simpl trimStart. rewrite Hcw. unfold signOf.
    destruct (N.eqb_spec c 45) as [->|Hn45].
    + change (d :: ds ++ rest) with ((d :: ds) ++ rest). rewrite Ev.
      simpl app. now rewrite (isDigit_digitValue d Hd0).
    + destruct (N.eqb_spec c 43) as [->|Hn43]; [|destruct Hc; congruence].
      change (d :: ds ++ rest) with ((d :: ds) ++ rest). rewrite Ev.
      simpl app. now rewrite (isDigit_digitValue d Hd0).
Qed.

(** White space, one sign and then no digit: [parseInt] gives NaN.  Without
    a sign, what follows the white space must not itself be white space
    or a sign. *)
Lemma parseInt_nothing (ws sign rest : jsString) :
  forallb isWhiteSpace ws = true -> isSign sign = true ->
  startsWithDigit rest = false ->
  (sign = [] -> opensNothing rest = true) ->
  parseInt (ws ++ sign ++ rest) = None.
Proof.
  intros Hws Hsign Hr Ho. unfold parseInt. rewrite trimStart_app by exact Hws.
  destruct sign as [|c [|c' sign]]; simpl in Hsign; [| |discriminate].
  - specialize (Ho eq_refl). simpl app.
    destruct rest as [|c r]; [reflexivity|].
    simpl in Ho, Hr. apply negb_true_iff in Ho.
    apply orb_false_iff in Ho as [Ho H45].
    apply orb_false_iff in Ho as [Ho H43].
    apply orb_false_iff in Ho as [Hw _].
    simpl trimStart. rewrite Hw, H45, H43.
    now rewrite (not_isDigit_digitValue c Hr).
  - apply orb_true_iff in Hsign.
    assert (c = 43%N \/ c = 45%N) as Hc
      by (destruct Hsign as [H | H]; apply N.eqb_eq in H; auto).
    assert (parseInt_rest :
              match rest with
              | c0 :: _ =>
                  match digitValue c0 with
                  | Some _ => Some (toNumber 0)
                  | None => None
                  end
              | [] => None
              end = (None : option JsNum.t)).
    { destruct rest as [|c0 r]; [reflexivity|].
      simpl in Hr. now rewrite (not_isDigit_digitValue c0 Hr). }
    destruct Hc as [-> | ->]; simpl;
      destruct rest as [|c0 r]; try reflexivity;
      simpl in Hr; now rewrite (not_isDigit_digitValue c0 Hr).
Qed.

(** The Number value of an integer. *)

Lemma toNumber_exact (m : Z) :
  (Z.abs m < 2 ^ 53)%Z -> toNumber m = JsNum.Fin m.
Proof.
  intros H. unfold toNumber.
  assert (Z.log2 (Z.abs m) < 53)%Z as Hl.
  { destruct (Z.eq_dec (Z.abs m) 0%Z) as [-> | Hn]; [reflexivity|].
    apply Z.log2_lt_pow2; lia. }
  destruct (Z.leb_spec (Z.log2 (Z.abs m) + 1 - 53) 0%Z); [reflexivity | lia].
Qed.

Lemma toNumber_shift (m : Z) :
  let a := Z.abs m in
  let k := (Z.log2 a + 1 - 53)%Z in
  (0 < k)%Z -> (2 ^ 52 <= Z.shiftr a k)%Z /\ (2 ^ (52 + k) <= a)%Z.
Proof.
  intros a k Hk.
  assert (0 < a)%Z as Ha.
  { destruct (Z.eq_dec a 0%Z) as [E | E]; [|subst a; lia].
    subst k. rewrite E in Hk. simpl in Hk. lia. }
  pose proof (Z.log2_spec a Ha) as [Hlo _].
  assert (Z.log2 a = 52 + k)%Z as El by lia.
  rewrite El in Hlo. split; [|exact Hlo].
  rewrite Z.shiftr_div_pow2 by lia.
  apply Z.div_le_lower_bound; [apply Z.pow_pos_nonneg; lia|].
  rewrite <- Z.pow_add_r by lia. now rewrite Z.add_comm.
Qed.

Lemma significand_ge (a k : Z) : (Z.shiftr a k <= significand a k)%Z.
Proof. unfold significand. destruct (_ || _)%bool; lia. Qed.

Lemma toNumber_sign (m : Z) :
  ((0 < m)%Z -> (JsNum.Fin 0 < toNumber m)%num)
  /\ ((m <= 0)%Z -> (toNumber m <= JsNum.Fin 0)%num).
Proof.
  unfold toNumber.
  set (a := Z.abs m). set (k := (Z.log2 a + 1 - 53)%Z).
  destruct (Z.leb_spec k 0%Z) as [Hk | Hk].
  - split; intros H; [now apply JsNum_lt_Fin | now apply JsNum_le_Fin].
  - destruct (toNumber_shift m Hk) as [Hq _]. fold a k in Hq.
    pose proof (significand_ge a k) as Hge.
    set (q' := significand a k) in *.
    assert (0 < q')%Z as Hq'.
    { assert (0 < 2 ^ 52)%Z by (apply Z.pow_pos_nonneg; lia). lia. }
    assert (0 < Z.shiftl q' k)%Z as Hv.
    { rewrite Z.shiftl_mul_pow2 by lia.
      apply Z.mul_pos_pos; [exact Hq' | apply Z.pow_pos_nonneg; lia]. }
    destruct (Z.leb_spec (Z.shiftl 1%Z 1024%Z) (Z.shiftl q' k)) as [Hov | Hov].
    + split; intros H.
      * destruct (Z.ltb_spec 0%Z m) as [Hm | Hm]; [reflexivity | lia].
      * destruct (Z.ltb_spec 0%Z m) as [Hm | Hm]; [lia | reflexivity].
    + split; intros H.
      * apply JsNum_lt_Fin. rewrite Z.sgn_pos by exact H. lia.
      * apply JsNum_le_Fin.
        assert (Z.sgn m <= 0)%Z by (destruct m; simpl; lia). nia.
Qed.

Lemma toNumber_overflow (m : Z) :
  (2 ^ 1024 <= m)%Z -> toNumber m = JsNum.PosInf.
Proof.
  intros H. unfold toNumber.
  assert (0 < 2 ^ 1024)%Z as Hp by (apply Z.pow_pos_nonneg; lia).
  assert (Z.abs m = m) as Ea by lia. rewrite Ea.
  assert (1024 <= Z.log2 m)%Z as Hl.
  { rewrite <- (Z.log2_pow2 1024%Z) by lia. now apply Z.log2_le_mono. }
  set (k := (Z.log2 m + 1 - 53)%Z).
  destruct (Z.leb_spec k 0%Z) as [Hk | Hk]; [lia|].
  pose proof (toNumber_shift m) as Hs. cbv zeta in Hs. rewrite Ea in Hs.
  destruct (Hs Hk) as [Hq _]. fold k in Hq.
  pose proof (significand_ge m k) as Hge.
  set (q' := significand m k) in *.
  assert (Z.shiftl 1%Z 1024%Z <= Z.shiftl q' k)%Z as Hv.
  { rewrite !Z.shiftl_mul_pow2 by lia. rewrite Z.mul_1_l.
    apply Z.le_trans with (2 ^ 52 * 2 ^ k)%Z.
    - rewrite <- Z.pow_add_r by lia. apply Z.pow_le_mono_r; lia.
    - apply Z.mul_le_mono_nonneg_r; [apply Z.pow_nonneg; lia | lia]. }
  destruct (Z.leb_spec (Z.shiftl 1%Z 1024%Z) (Z.shiftl q' k)) as [Hov | Hov];
    [|lia].
  destruct (Z.ltb_spec 0%Z m) as [Hm | Hm]; [reflexivity | lia].
Qed.

(** A Number value that is finite is within half a unit of the last place
    of the integer: exact up to 53 bits, and beyond a multiple of [2^k]
    at most [2^(k-1)] away, where [53 + k] is the number of bits. *)
Lemma toNumber_nearest (m v : Z) :
  toNumber m = JsNum.Fin v ->
  let k := (Z.log2 (Z.abs m) + 1 - 53)%Z in
  ((k <= 0)%Z -> v = m)
  /\ ((0 < k)%Z ->
      (exists s : Z, v = s * 2 ^ k)%Z /\ (2 * Z.abs (v - m) <= 2 ^ k)%Z).
Proof.
  unfold toNumber. cbv zeta.
  set (a := Z.abs m). set (k := (Z.log2 a + 1 - 53)%Z).
  destruct (Z.leb_spec k 0%Z) as [Hk | Hk].
  - intros [= <-]. split; [reflexivity | lia].
  - destruct (Z.leb_spec (Z.shiftl 1%Z 1024%Z) (Z.shiftl (significand a k) k))
      as [Hov | Hov]; [destruct (0 <? m)%Z; discriminate|].
    intros [= <-]. split; [lia|]. intros _.
    rewrite Z.shiftl_mul_pow2 by lia.
    split; [exists (Z.sgn m * significand a k)%Z; ring|].
    unfold significand. rewrite Z.shiftr_div_pow2, !Z.shiftl_mul_pow2 by lia.
    rewrite Z.mul_1_l.
    assert (0 < 2 ^ (k - 1))%Z as Hh by (apply Z.pow_pos_nonneg; lia).
    assert (2 ^ k = 2 * 2 ^ (k - 1))%Z as Ek.
    { replace k with (1 + (k - 1))%Z at 1 by lia.
      rewrite Z.pow_add_r by lia. reflexivity. }
    pose proof (Z.div_mod a (2 ^ k)) as Hdm.
    pose proof (Z.mod_pos_bound a (2 ^ k)) as Hmb.
    set (P := (2 ^ (k - 1))%Z) in *. rewrite Ek in *.
    set (q := (a / (2 * P))%Z) in *. set (r := (a mod (2 * P))%Z) in *.
    assert (a - q * (2 * P) = r)%Z as Er by lia. rewrite Er.
    assert (m = Z.sgn m * a)%Z as Em by (subst a; destruct m; simpl; lia).
    assert (Z.sgn m = 1 \/ Z.sgn m = -1 \/ m = 0)%Z as Hs
      by (destruct m; simpl; auto).
    destruct ((P <? r) || (r =? P) && Z.odd q)%bool eqn:Hb.
    + assert (P <= r)%Z.
      { apply orb_true_iff in Hb as [Hb | Hb]; [apply Z.ltb_lt in Hb; lia|].
        apply andb_true_iff in Hb as [Hb _]. apply Z.eqb_eq in Hb. lia. }
      destruct Hs as [Hs | [Hs | Hs]]; [rewrite Hs in *..|]; nia.
    + assert (r <= P)%Z.
      { apply orb_false_iff in Hb as [Hb _]. apply Z.ltb_ge in Hb. lia. }
      destruct Hs as [Hs | [Hs | Hs]]; [rewrite Hs in *..|]; nia.
Qed.

Lemma loadBest_bestRef (g : Game) :
  bestRef (loadBest g) =
  match readSaved (localStorage g) with
  | Some saved => if JsNum.ltb (JsNum.Fin 0) saved then saved else bestRef g
  | None => bestRef g
  end.
Proof.
  unfold loadBest. destruct (readSaved _) as [saved|]; [|reflexivity].
  destruct (JsNum.ltb _ _); reflexivity.
Qed.

Lemma mount_bestRef (storage : gmap jsString jsString) (now : Q) :
  bestRef (mount storage now) =
  match readSaved storage with
  | Some saved =>
      if JsNum.ltb (JsNum.Fin 0) saved then saved else JsNum.Fin 0
  | None => JsNum.Fin 0
  end.
Proof. unfold mount. simpl. now rewrite loadBest_bestRef. Qed.

(** In a store holding four hundred digits 9 the best score after mounting
    is +Infinity: the default has been replaced, and not by an integer. *)
Lemma stored_best_counterexample :
  parseInt nines400 = Some JsNum.PosInf
  /\ bestRef (mount {[ BEST_KEY := nines400 ]} 0) = JsNum.PosInf
  /\ ~ (exists n : Z, bestRef (mount {[ BEST_KEY := nines400 ]} 0) = JsNum.Fin n).
Proof.
  assert (bestRef (mount {[ BEST_KEY := nines400 ]} 0) = JsNum.PosInf) as E
    by (vm_compute; reflexivity).
  split; [vm_compute; reflexivity|]. split; [exact E|].
  intros [n Hn]. rewrite E in Hn. discriminate.
Qed.

(** C9, as the code has it: after mounting, the best score is 0 when the
    key is missing, when the stored string has no number for [parseInt]
    (after white space and at most one sign there is no decimal digit),
    and when the number read is not positive; a positive number read
    becomes the best score.  The number read is the Number value of the
    signed integer that the leading digits write: that integer itself up
    to 53 bits, beyond that the nearest double, and +Infinity from 2^1024
    on.  So a best score other than 0 after mounting is a positive number
    read from the store, an integer or +Infinity. *)
Theorem stored_best_is_read (storage : gmap jsString jsString) (now : Q) :
  (storage !! BEST_KEY = None -> bestRef (mount storage now) = JsNum.Fin 0)
  /\ (forall s : jsString,
        storage !! BEST_KEY = Some s -> parseInt s = None ->
        bestRef (mount storage now) = JsNum.Fin 0)
  /\ (forall (s : jsString) (v : JsNum.t),
        storage !! BEST_KEY = Some s -> parseInt s = Some v ->
        (JsNum.Fin 0 < v)%num -> bestRef (mount storage now) = v)
  /\ (forall (s : jsString) (v : JsNum.t),
        storage !! BEST_KEY = Some s -> parseInt s = Some v ->
        (v <= JsNum.Fin 0)%num -> bestRef (mount storage now) = JsNum.Fin 0)
  /\ (bestRef (mount storage now) <> JsNum.Fin 0 ->
      exists s : jsString,
        storage !! BEST_KEY = Some s
        /\ parseInt s = Some (bestRef (mount storage now))
        /\ (JsNum.Fin 0 < bestRef (mount storage now))%num)
  /\ (forall ws sign rest : jsString,
        forallb isWhiteSpace ws = true -> isSign sign = true ->
        startsWithDigit rest = false ->
        (sign = [] -> opensNothing rest = true) ->
        storage !! BEST_KEY = Some (ws ++ sign ++ rest) ->
        bestRef (mount storage now) = JsNum.Fin 0)
  /\ (forall ws sign digits rest : jsString,
        forallb isWhiteSpace ws = true -> isSign sign = true ->
        forallb isDigit digits = true -> digits <> [] ->
        startsWithDigit rest = false ->
        storage !! BEST_KEY = Some (ws ++ sign ++ digits ++ rest) ->
        let n := (signOf sign * decimalValue digits)%Z in
        bestRef (mount storage now)
        = (if (0 <? n)%Z then toNumber n else JsNum.Fin 0)
        /\ ((0 < n < 2 ^ 53)%Z -> bestRef (mount storage now) = JsNum.Fin n)
        /\ ((2 ^ 1024 <= n)%Z -> bestRef (mount storage now) = JsNum.PosInf)
        /\ (forall v : Z,
              (0 < n)%Z -> bestRef (mount storage now) = JsNum.Fin v ->
              let k := (Z.log2 n + 1 - 53)%Z in
              (0 < v)%Z
              /\ ((k <= 0)%Z -> v = n)
              /\ ((0 < k)%Z ->
                  (exists s : Z, v = s * 2 ^ k)%Z
                  /\ (2 * Z.abs (v - n) <= 2 ^ k)%Z))).
Proof.
  rewrite mount_bestRef. unfold readSaved.
  split; [|split; [|split; [|split; [|split; [|split]]]]].
  - intros ->. reflexivity.
  - intros s -> Hp. simpl. now rewrite Hp.
  - intros s v -> Hp Hv. simpl. rewrite Hp.
    unfold JsNum.lt in Hv. now rewrite Hv.
  - intros s v -> Hp Hv. simpl. rewrite Hp.
    unfold JsNum.le in Hv. unfold JsNum.ltb. now rewrite Hv.
  - destruct (storage !! BEST_KEY) as [s|]; simpl.
    + destruct (parseInt s) as [v|] eqn:Hp; [|congruence].
      destruct (JsNum.ltb (JsNum.Fin 0) v) eqn:Hv; [|congruence].
      intros _. exists s. repeat split; assumption || reflexivity.
    + intros H. exfalso. apply H. reflexivity.
  - intros ws sign rest Hws Hsign Hr Ho ->. simpl.
    now rewrite (parseInt_nothing ws sign rest Hws Hsign Hr Ho).
  - intros ws sign digits rest Hws Hsign Hd Hne Hr ->. simpl.
    rewrite (parseInt_number ws sign digits rest Hws Hsign Hd Hne Hr).
    set (n := (signOf sign * decimalValue digits)%Z).
    destruct (toNumber_sign n) as [Hpos Hnonpos].
    assert ((if JsNum.ltb (JsNum.Fin 0) (toNumber n)
             then toNumber n else JsNum.Fin 0)
            = (if (0 <? n)%Z then toNumber n else JsNum.Fin 0)) as ->.
    { destruct (Z.ltb_spec 0%Z n) as [H | H].
      - specialize (Hpos H). unfold JsNum.lt in Hpos. now rewrite Hpos.
      - specialize (Hnonpos H). unfold JsNum.le in Hnonpos.
        unfold JsNum.ltb. now rewrite Hnonpos. }
    split; [reflexivity|]. split; [|split].
    + intros [H0 H1]. destruct (Z.ltb_spec 0%Z n); [|lia].
      apply toNumber_exact. lia.
    + intros H. assert (0 < 2 ^ 1024)%Z by (apply Z.pow_pos_nonneg; lia).
      destruct (Z.ltb_spec 0%Z n); [|lia]. now apply toNumber_overflow.
    + intros v H0 Hv. destruct (Z.ltb_spec 0%Z n); [|lia].
      pose proof (Hpos H0) as Hp. rewrite Hv in Hp. apply JsNum_lt_Fin in Hp.
      split; [exact Hp|].
      pose proof (toNumber_nearest n v Hv) as Hn. cbv zeta in Hn.
      rewrite (Z.abs_eq n) in Hn by lia. exact Hn.
Qed.

Lemma stored_best_is_read_witness :
  bestRef (mount ∅ 0) = JsNum.Fin 0
  /\ bestRef (mount {[ BEST_KEY := codeUnits "tower" ]} 0) = JsNum.Fin 0
  /\ bestRef (mount {[ BEST_KEY := 160%N :: codeUnits "42" ]} 0) = JsNum.Fin 42
  /\ bestRef (mount {[ BEST_KEY := codeUnits "-4" ]} 0) = JsNum.Fin 0
  /\ bestRef (mount {[ BEST_KEY := codeUnits "9007199254740993" ]} 0)
     = JsNum.Fin 9007199254740992
  /\ bestRef (mount {[ BEST_KEY := nines400 ]} 0) = JsNum.PosInf.
Proof.
  split; [|split; [|split; [|split; [|split]]]].
  - apply (proj1 (stored_best_is_read ∅ 0)). reflexivity.
  - apply (proj1 (proj2 (proj2 (proj2 (proj2 (proj2
             (stored_best_is_read {[ BEST_KEY := codeUnits "tower" ]} 0))))))
             [] [] (codeUnits "tower")); reflexivity.
  - destruct (proj2 (proj2 (proj2 (proj2 (proj2 (proj2
             (stored_best_is_read {[ BEST_KEY := 160%N :: codeUnits "42" ]} 0))))))
             [160%N] [] (codeUnits "42") []) as (_ & H & _);
      [reflexivity | reflexivity | reflexivity | discriminate | reflexivity
      | reflexivity | apply H; split; reflexivity].
  - apply (proj1 (proj2 (proj2 (proj2
             (stored_best_is_read {[ BEST_KEY := codeUnits "-4" ]} 0))))
             (codeUnits "-4") (JsNum.Fin (-4)%Z)); reflexivity.
  - apply (proj1 (proj2 (proj2
             (stored_best_is_read
                {[ BEST_KEY := codeUnits "9007199254740993" ]} 0)))
             (codeUnits "9007199254740993") (JsNum.Fin 9007199254740992));
      reflexivity.
  - apply (proj1 (proj2 (proj2
             (stored_best_is_read {[ BEST_KEY := nines400 ]} 0)))
             nines400 JsNum.PosInf); vm_compute; reflexivity.
Defined.


(** *** C10: a new obstacle is out of reach in the tick that creates it *)

Lemma filter_onScreen_snoc (obs : list Obstacle.t) (o : Obstacle.t) :
  onScreen o = true ->
  List.filter onScreen (obs ++ [o]) = List.filter onScreen obs ++ [o].
Proof. intros H. rewrite List.filter_app. simpl. now rewrite H. Qed.

Lemma last_snoc_eq {A : Type} (l : list A) (a : A) : last (l ++ [a]) = Some a.
Proof. apply last_snoc. Qed.

(** C10: the obstacle of a spawn has its left edge at
    [WORLD_WIDTH + width], beyond the right edge of the world.  In a tick
    of at most 0.035 seconds from a reachable state the obstacles move
    left by [speed * delta], at most 360 * 0.035 = 12.6 units, so after a
    tick that spawns, the new obstacle is the last of the list, moved but
    not marked passed, its left edge is still right of the world's edge
    less 12.6, and it does not overlap the player's hitbox. *)
Theorem spawned_obstacle_is_out_of_reach
    (delta : Q) (rnd : Rand) (g : Game) :
  reachable g -> validRand rnd ->
  delta <= 35 # 1000 -> spawnTimer g - delta <= 0 ->
  let o := newObstacle rnd in
  let g' := updateGame delta rnd g in
  let o' := Obstacle.mk (Obstacle.x o - speed g' * delta) (Obstacle.width o)
                        (Obstacle.height o) false in
  Obstacle.x o = WORLD_WIDTH + Obstacle.width o
  /\ WORLD_WIDTH < Obstacle.x o
  /\ Obstacle.passed o = false
  /\ speed g' * delta <= 360 * (35 # 1000)
  /\ last (obstacles g') = Some o'
  /\ WORLD_WIDTH + Obstacle.width o - 360 * (35 # 1000) <= Obstacle.x o'
  /\ overlaps (player g') o' = false
  /\ crossed (speed g' * delta) (Player.x (player g)) o = false.
Proof.
  intros Hg Hr Hd Hspawn. cbv zeta.
  destruct (reachable_inv g Hg) as [(Hx & _ & _) [Hs0 Hs1] _ _].
  destruct (newObstacle_width rnd Hr) as [Hw0 Hw1].
  rewrite updateGame_speed.
  pose proof (spawnStep_speed_inv delta rnd
                (set_player (stepPlayer delta (player g)) g)
                (conj Hs0 Hs1)) as [Hs0' Hs1'].
  set (g2 := spawnStep delta rnd (set_player (stepPlayer delta (player g)) g))
    in *.
  assert (speed g2 * delta <= 126 # 10) as Hdx
    by (apply travel_bound; auto; lra).
  assert (Player.x (stepPlayer delta (player g)) = 74) as Hx'
    by (destruct (stepPlayer_cases delta (player g)) as [[_ ->] | [_ ->]];
        exact Hx).
  assert (obstacles g2 = obstacles g ++ [newObstacle rnd]) as Hobs.
  { subst g2. destruct (spawnStep_cases delta rnd
      (set_player (stepPlayer delta (player g)) g)) as [[_ ->] | [Hno _]];
      simpl in *; [reflexivity | lra]. }
  destruct (newObstacle_clear rnd (speed g2 * delta)
              (stepPlayer delta (player g)) Hr Hdx Hx') as [Hc Hov].
  assert (moved (speed g2 * delta) 74 (newObstacle rnd) =
          Obstacle.mk (Obstacle.x (newObstacle rnd) - speed g2 * delta)
                      (Obstacle.width (newObstacle rnd))
                      (Obstacle.height (newObstacle rnd)) false) as Hmv
    by (unfold moved; rewrite Hc; reflexivity).
  rewrite Hmv in Hov.
  assert (obstacles (updateGame delta rnd g) =
          obstacles (beforeCollision delta rnd g)) as Hob'
    by (rewrite updateGame_eq; destruct (hit _);
        rewrite ?endGame_obstacles; reflexivity).
  split; [reflexivity|]. split; [simpl in *; unfold WORLD_WIDTH; lra|].
  split; [reflexivity|]. split; [lra|]. split; [|split; [|split]].
  - rewrite Hob', beforeCollision_obstacles. fold g2. rewrite Hobs, Hx.
    rewrite map_app. simpl. rewrite Hmv, filter_onScreen_snoc.
    + apply last_snoc_eq.
    + unfold onScreen; simpl. apply Qltb_lt. simpl in Hw0.
      unfold WORLD_WIDTH. lra.
  - simpl. lra.
  - rewrite updateGame_player. exact Hov.
  - rewrite Hx. exact Hc.
Qed.

Lemma spawned_obstacle_is_out_of_reach_witness :
  let o := newObstacle halfRand in
  let g' := updateGame (35 # 1000) halfRand beforeFirstSpawn in
  last (obstacles g') =
    Some (Obstacle.mk (Obstacle.x o - speed g' * (35 # 1000))
                      (Obstacle.width o) (Obstacle.height o) false)
  /\ overlaps (player g')
       (Obstacle.mk (Obstacle.x o - speed g' * (35 # 1000))
                    (Obstacle.width o) (Obstacle.height o) false) = false.
Proof.
  destruct (spawned_obstacle_is_out_of_reach (35 # 1000) halfRand
              beforeFirstSpawn beforeFirstSpawn_reachable halfRand_valid)
    as (_ & _ & _ & _ & H1 & _ & H2 & _).
  - apply Qle_refl.
  - apply Qleb_le. vm_compute. reflexivity.
  - split; [exact H1 | exact H2].
Defined.
